(** * sendtx-p2p: the peer-to-peer transaction broadcaster of sx

    A shallow embedding of [src/sendtx-p2p.cpp].  The file-level flag
    [stopped], the log sinks, the standard streams and the protocol
    session are the fields of one explicit [state]; every function of the
    source is a function on that state.  Completion handlers built with
    [std::bind] and the two lambdas are values of the type [callback]
    (the closure together with what it binds), which the session stores
    and the environment fires.  Objects that the source refers to by
    [std::ref] have a lifetime in the state: the two [std::ofstream]
    objects of [bind_logging] and the transaction copied into the handler
    of line 187.  A use of such an object after its destruction has no
    defined behaviour; the state records it in [undefined]. *)

From Stdlib Require Import ZArith List String Ascii Bool Lia.
From Stdlib Require Import DecimalString.
Import ListNotations.

Local Open Scope string_scope.
Local Open Scope Z_scope.

(** ** Output streams *)

(** A [std::ostream] is the sequence of characters written to it so far. *)
Definition ostream := string.

(** [os << x] *)
Definition put (os : ostream) (x : string) : ostream := os ++ x.

(** [std::endl] *)
Definition endl : string := String (ascii_of_nat 10) EmptyString.

(** [s.empty()] for [std::string] and [boost::filesystem::path]. *)
Definition empty (s : string) : bool :=
  match s with
  | EmptyString => true
  | String _ _ => false
  end.

(** [os << n] for an [int] and for a [size_t]. *)
Definition dec (n : Z) : string := NilZero.string_of_int (Z.to_int n).

(** ** Values of the libraries *)

(** [bc::log_level], as far as the source names the levels. *)
Inductive log_level := debug | info | warning | error | fatal.

(** [std::error_code]: its value; [if (error)] tests it against zero. *)
Definition error_code := Z.

Definition is_error (ec : error_code) : bool := negb (ec =? 0).

(** [channel_ptr]: the identity of the channel pointed to. *)
Definition channel_ptr := nat.

(** [sx::console_result], declared in [sx/define.hpp]. *)
Inductive console_result := failure | okay | invalid.

(** [size_t] arithmetic is arithmetic modulo [2^64].  The node count of
    [get_nodes_option], whose declaration is in the generated header of
    the command, is a [size_t], as at lines 88 and 198. *)
Definition size_t_bits : Z := 64.

Definition size_t_wrap (n : Z) : Z := n mod 2 ^ size_t_bits.

(** The two [std::ofstream] objects of [bind_logging], which the bound
    output functions hold by [std::ref]. *)
Inductive ofstream_ref := debug_file | error_file.

(** A [std::ofstream]: what has been written to its file, and whether
    the object exists (it has been constructed and not yet destroyed). *)
Record ofstream := mk_ofstream {
  written : ostream;
  alive : bool
}.

(** What [set_output_function] installs for a level.  [library_default]
    is the output function a logger has before [bind_logging] changes it. *)
Inductive output_function :=
| library_default
| bound_output_to_file (file : ofstream_ref)
| bound_output_cerr_and_file (file : ofstream_ref).

(** [transactions.front()]: defined on a non-empty collection only. *)
Definition front {A : Type} (l : list A) : option A :=
  match l with
  | [] => None
  | x :: _ => Some x
  end.

(** What the environment does to the program: the session completes an
    operation, a channel completes a send, or a signal arrives.  The
    messages that libbitcoin logs of its own are not events of a run: a
    run holds the log statements of the source only. *)
Inductive event :=
| start_done (ec : error_code)
| channel_ready (ec : error_code) (node : channel_ptr)
| count_fetched (ec : error_code) (connection_count : Z)
| send_done (ec : error_code) (now : string)
| stop_done (ec : error_code)
| signal_raised (sig : Z).

(** A step of a run: the thread in [invoke] advances, or an event is
    delivered. *)
Inductive action :=
| main
| env (e : event).

Section Broadcaster.

(** Functions and types of libbitcoin that the source calls and that are
    declared outside it. *)
Variable level_repr : log_level -> string.
Variable message : error_code -> string.
Context {transaction_type : Type}.
Variable hash_transaction : transaction_type -> string.

(** ** The log sinks (lines 36-64) *)

Definition output_to_file (file : ostream) (level : log_level)
    (domain body : string) : ostream :=
  if empty body then file
  else
    let file := put file (level_repr level) in
    let file :=
      if negb (empty domain)
      then put (put (put file " [") domain) "]"
      else file in
    put (put (put file ": ") body) endl.

(** Returns the file stream and [std::cerr] after the call. *)
Definition output_cerr_and_file (file cerr : ostream) (level : log_level)
    (domain body : string) : ostream * ostream :=
  if empty body then (file, cerr)
  else
    let output := put EmptyString (level_repr level) in
    let output :=
      if negb (empty domain)
      then put (put (put output " [") domain) "]"
      else output in
    let output := put (put output ": ") body in
    (file, put (put cerr output) endl).

(** The line of the logging sink contract:
    [<LEVEL>[ <domain>]: <message>]. *)
Definition contract_line (level : log_level) (domain body : string) : string :=
  level_repr level
  ++ (if empty domain then "" else " [" ++ domain ++ "]")
  ++ ": " ++ body.

(** ** Loggers and streams *)

Record io_state := mk_io {
  debug_out : output_function;
  info_out : output_function;
  warning_out : output_function;
  error_out : output_function;
  fatal_out : output_function;
  debug_stream : ofstream;
  error_stream : ofstream;
  cerr : ostream;
  cout : ostream;
  default_out : list (log_level * string * string)
}.

Definition io_initial : io_state :=
  mk_io library_default library_default library_default library_default
        library_default (mk_ofstream "" false) (mk_ofstream "" false)
        "" "" [].

Definition out_of (level : log_level) (io : io_state) : output_function :=
  match level with
  | debug => debug_out io
  | info => info_out io
  | warning => warning_out io
  | error => error_out io
  | fatal => fatal_out io
  end.

Definition stream_of (f : ofstream_ref) (io : io_state) : ofstream :=
  match f with
  | debug_file => debug_stream io
  | error_file => error_stream io
  end.

Definition set_stream (f : ofstream_ref) (os : ofstream) (io : io_state)
    : io_state :=
  match f with
  | debug_file =>
      mk_io (debug_out io) (info_out io) (warning_out io) (error_out io)
            (fatal_out io) os (error_stream io) (cerr io) (cout io)
            (default_out io)
  | error_file =>
      mk_io (debug_out io) (info_out io) (warning_out io) (error_out io)
            (fatal_out io) (debug_stream io) os (cerr io) (cout io)
            (default_out io)
  end.

Definition set_cerr (os : ostream) (io : io_state) : io_state :=
  mk_io (debug_out io) (info_out io) (warning_out io) (error_out io)
        (fatal_out io) (debug_stream io) (error_stream io) os (cout io)
        (default_out io).

Definition set_cout (os : ostream) (io : io_state) : io_state :=
  mk_io (debug_out io) (info_out io) (warning_out io) (error_out io)
        (fatal_out io) (debug_stream io) (error_stream io) (cerr io) os
        (default_out io).

(** [log_xxx().set_output_function(f)] *)
Definition set_output_function (level : log_level) (f : output_function)
    (io : io_state) : io_state :=
  match level with
  | debug =>
      mk_io f (info_out io) (warning_out io) (error_out io) (fatal_out io)
            (debug_stream io) (error_stream io) (cerr io) (cout io)
            (default_out io)
  | info =>
      mk_io (debug_out io) f (warning_out io) (error_out io) (fatal_out io)
            (debug_stream io) (error_stream io) (cerr io) (cout io)
            (default_out io)
  | warning =>
      mk_io (debug_out io) (info_out io) f (error_out io) (fatal_out io)
            (debug_stream io) (error_stream io) (cerr io) (cout io)
            (default_out io)
  | error =>
      mk_io (debug_out io) (info_out io) (warning_out io) f (fatal_out io)
            (debug_stream io) (error_stream io) (cerr io) (cout io)
            (default_out io)
  | fatal =>
      mk_io (debug_out io) (info_out io) (warning_out io) (error_out io) f
            (debug_stream io) (error_stream io) (cerr io) (cout io)
            (default_out io)
  end.

(** [log_xxx(domain) << body;]: the message goes to the output function
    the level has at that moment.  [output_to_file] returns before it
    touches its stream when the body is empty and inserts into it
    otherwise; inserting into a stream that has been destroyed has no
    defined behaviour, which is [None].  [output_cerr_and_file] never
    touches the stream it is given. *)
Definition log_to (level : log_level) (domain body : string)
    (io : io_state) : option io_state :=
  match out_of level io with
  | library_default =>
      Some (mk_io (debug_out io) (info_out io) (warning_out io)
                  (error_out io) (fatal_out io) (debug_stream io)
                  (error_stream io) (cerr io) (cout io)
                  (default_out io ++ [(level, domain, body)]))
  | bound_output_to_file f =>
      if empty body then Some io
      else if alive (stream_of f io) then
        Some (set_stream f
                (mk_ofstream
                   (output_to_file (written (stream_of f io))
                                   level domain body)
                   true)
                io)
      else None
  | bound_output_cerr_and_file f =>
      let r := output_cerr_and_file (written (stream_of f io)) (cerr io)
                 level domain body in
      Some (set_cerr (snd r)
              (set_stream f
                 (mk_ofstream (fst r) (alive (stream_of f io))) io))
  end.

(** [std::ofstream f(path)] constructs the object, opens the file and
    truncates it. *)
Definition open_ofstream (f : ofstream_ref) (io : io_state) : io_state :=
  set_stream f (mk_ofstream "" true) io.

(** The end of the block that declares [f]: the object is destroyed
    (and its file closed). *)
Definition destroy_ofstream (f : ofstream_ref) (io : io_state) : io_state :=
  set_stream f (mk_ofstream (written (stream_of f io)) false) io.

(** ** bind_logging (lines 125-155) *)

(** [debug_file] and [error_file] are declared inside the two blocks
    (lines 130 and 142) and bound by [std::ref]; each is destroyed at the
    end of its block (lines 138 and 154). *)
Definition bind_logging (debug_path error_path : string) (io : io_state)
    : io_state :=
  let io :=
    if negb (empty debug_path) then
      let io := open_ofstream debug_file io in
      let io :=
        set_output_function debug (bound_output_to_file debug_file) io in
      let io :=
        set_output_function info (bound_output_to_file debug_file) io in
      destroy_ofstream debug_file io
    else io in
  if negb (empty error_path) then
    let io := open_ofstream error_file io in
    let io :=
      set_output_function warning (bound_output_to_file error_file) io in
    let io :=
      set_output_function error (bound_output_cerr_and_file error_file) io in
    let io :=
      set_output_function fatal (bound_output_cerr_and_file error_file) io in
    destroy_ofstream error_file io
  else io.

(** ** Completion handlers as values *)

(** The closures the source hands to the session: [handle_start] (line
    185), [std::bind(check_connection_count, _1, _2, node_count)] (line
    198), the lambdas [handle_send] (line 112) and [ignore_stop] (line
    202), and the two bindings of [send_tx]:
    - [cb_send_tx object] is [std::bind(send_tx, _1, _2, std::ref(prot),
      tx)] of line 187: [tx] is not wrapped in [std::ref], so the handler
      stores a copy of the transaction, the object [object], which lives
      as long as the handler;
    - [cb_send_tx_ref object] is the binding of lines 121-122 with
      [std::ref(tx)]: the handler stores a reference to the transaction
      object [object] that the running handler was called with. *)
Inductive callback :=
| cb_handle_start
| cb_send_tx (object : nat)
| cb_send_tx_ref (object : nat)
| cb_check_connection_count (node_count : Z)
| cb_handle_send
| cb_ignore_stop.

(** The arguments a completion is fired with. *)
Inductive callback_args :=
| args_error (ec : error_code)
| args_channel (ec : error_code) (node : channel_ptr)
| args_count (ec : error_code) (connection_count : Z).

(** ** The protocol session *)

Inductive api_call :=
| call_set_max_outbound (n : Z)
| call_start
| call_subscribe_channel
| call_fetch_connection_count
| call_stop
| call_send (node : channel_ptr) (tx : option transaction_type).

(** Modelled from the spec: the classes [protocol] and [channel] are
    libbitcoin's and are not part of the source; the record holds what the
    Protocol Session contract names: the outbound cap, and for each
    operation the handlers registered and not yet fired.  [calls] is the
    history of the operations invoked; a send is recorded with the
    transaction it was given, [None] when that was read from a destroyed
    object. *)
Record protocol := mk_protocol {
  max_outbound : option Z;
  start_handlers : list callback;
  channel_subscribers : list callback;
  count_handlers : list callback;
  send_handlers : list callback;
  stop_handlers : list callback;
  calls : list api_call
}.

Definition protocol_initial : protocol :=
  mk_protocol None [] [] [] [] [] [].

(** Modelled from the spec: [setMaxOutbound(n)] caps the outbound
    connections. *)
Definition set_max_outbound (n : Z) (p : protocol) : protocol :=
  mk_protocol (Some n) (start_handlers p) (channel_subscribers p)
              (count_handlers p) (send_handlers p) (stop_handlers p)
              (calls p ++ [call_set_max_outbound n]).

(** Modelled from the spec: [start(onStarted)] keeps the handler until the
    session invokes it, once. *)
Definition start (h : callback) (p : protocol) : protocol :=
  mk_protocol (max_outbound p) (start_handlers p ++ [h])
              (channel_subscribers p) (count_handlers p) (send_handlers p)
              (stop_handlers p) (calls p ++ [call_start]).

(** Modelled from the spec: [subscribeChannel(onChannel)] registers a
    one-shot listener. *)
Definition subscribe_channel (h : callback) (p : protocol) : protocol :=
  mk_protocol (max_outbound p) (start_handlers p)
              (channel_subscribers p ++ [h]) (count_handlers p)
              (send_handlers p) (stop_handlers p)
              (calls p ++ [call_subscribe_channel]).

(** Modelled from the spec: [fetchConnectionCount(onCount)] fires its
    handler once per call. *)
Definition fetch_connection_count (h : callback) (p : protocol) : protocol :=
  mk_protocol (max_outbound p) (start_handlers p) (channel_subscribers p)
              (count_handlers p ++ [h]) (send_handlers p) (stop_handlers p)
              (calls p ++ [call_fetch_connection_count]).

(** Modelled from the spec: [stop(onStopped)] tears the session down. *)
Definition stop (h : callback) (p : protocol) : protocol :=
  mk_protocol (max_outbound p) (start_handlers p) (channel_subscribers p)
              (count_handlers p) (send_handlers p) (stop_handlers p ++ [h])
              (calls p ++ [call_stop]).

(** Modelled from the spec: [node->send(tx, handler)], one send attempt
    over the channel; the handler receives the result of the send. *)
Definition channel_send (node : channel_ptr)
    (tx : option transaction_type) (h : callback) (p : protocol)
    : protocol :=
  mk_protocol (max_outbound p) (start_handlers p) (channel_subscribers p)
              (count_handlers p) (send_handlers p ++ [h]) (stop_handlers p)
              (calls p ++ [call_send node tx]).

(** The send attempts in a history, oldest first. *)
Fixpoint sends (l : list api_call)
    : list (channel_ptr * option transaction_type) :=
  match l with
  | [] => []
  | call_send node tx :: l' => (node, tx) :: sends l'
  | _ :: l' => sends l'
  end.

(** The number of [subscribe_channel] calls in a history. *)
Fixpoint subscriptions (l : list api_call) : nat :=
  match l with
  | [] => O
  | call_subscribe_channel :: l' => S (subscriptions l')
  | _ :: l' => subscriptions l'
  end.

(** ** The program state *)

(** The points of [sendtx_p2p::invoke] between which other threads and
    signals can run; the three [at_poll] points are the loop of
    [client.poll(stopped, 2000, work)]. *)
Inductive control :=
| at_bind_logging
| at_set_max_outbound
| at_start
| at_subscribe_channel
| at_signal_abrt
| at_signal_term
| at_signal_int
| at_poll_test
| at_poll_work
| at_poll_sleep
| at_stop
| returned (r : console_result).

(** The bound parameters of [invoke] (lines 161-164). *)
Record config := mk_config {
  logging_debug_setting : string;
  logging_error_setting : string;
  transactions_argument : list transaction_type;
  nodes_option : Z
}.

(** [undefined]: the program has used an object after its destruction;
    from then on the state is what the statements of the source would
    do next, no longer what the program does.  [bound_tx]: the
    transaction objects stored in handlers, in the order of their
    creation; [None] once the handler that holds the object has been
    destroyed. *)
Record state := mk_state {
  stopped : bool;
  where_ : control;
  handled_signals : list Z;
  io : io_state;
  prot : protocol;
  args : config;
  tx_local : transaction_type;
  undefined : bool;
  bound_tx : list (option transaction_type)
}.

Definition set_stopped (st : state) : state :=
  mk_state true (where_ st) (handled_signals st) (io st) (prot st)
           (args st) (tx_local st) (undefined st) (bound_tx st).

Definition set_undefined (st : state) : state :=
  mk_state (stopped st) (where_ st) (handled_signals st) (io st) (prot st)
           (args st) (tx_local st) true (bound_tx st).

Definition with_control (c : control) (st : state) : state :=
  mk_state (stopped st) c (handled_signals st) (io st) (prot st)
           (args st) (tx_local st) (undefined st) (bound_tx st).

Definition with_io (f : io_state -> io_state) (st : state) : state :=
  mk_state (stopped st) (where_ st) (handled_signals st) (f (io st))
           (prot st) (args st) (tx_local st) (undefined st) (bound_tx st).

Definition with_prot (f : protocol -> protocol) (st : state) : state :=
  mk_state (stopped st) (where_ st) (handled_signals st) (io st)
           (f (prot st)) (args st) (tx_local st) (undefined st)
           (bound_tx st).

Definition with_bound_tx (l : list (option transaction_type)) (st : state)
    : state :=
  mk_state (stopped st) (where_ st) (handled_signals st) (io st) (prot st)
           (args st) (tx_local st) (undefined st) l.

(** [signal(sig, signal_handler)] *)
Definition signal (sig : Z) (st : state) : state :=
  mk_state (stopped st) (where_ st) (sig :: handled_signals st) (io st)
           (prot st) (args st) (tx_local st) (undefined st) (bound_tx st).

(** The transaction object [object], while it exists. *)
Definition read_tx (object : nat) (st : state) : option transaction_type :=
  match nth_error (bound_tx st) object with
  | Some (Some tx) => Some tx
  | _ => None
  end.

(** The destruction of the transaction object [object]. *)
Fixpoint destroy (object : nat) (l : list (option transaction_type))
    : list (option transaction_type) :=
  match l, object with
  | [], _ => []
  | _ :: l', O => None :: l'
  | x :: l', S k => x :: destroy k l'
  end.

(** [log_xxx() << body;] with the default, empty domain. *)
Definition log (level : log_level) (body : string) (st : state) : state :=
  match log_to level "" body (io st) with
  | Some o => with_io (fun _ => o) st
  | None => set_undefined st
  end.

(** [std::cout << text] *)
Definition print (text : string) (st : state) : state :=
  with_io (fun o => set_cout (put (cout o) text) o) st.

(** ** The handlers (lines 66-123) *)

Definition signal_handler (sig : Z) (st : state) : state :=
  let st := log info ("Caught signal: " ++ dec sig) st in
  set_stopped st.

Definition handle_start (ec : error_code) (st : state) : state :=
  if is_error ec then
    let st := log warning ("Start failed: " ++ message ec) st in
    set_stopped st
  else
    log debug "Started." st.

Definition check_connection_count (ec : error_code)
    (connection_count node_count : Z) (st : state) : state :=
  let st :=
    if is_error ec
    then log warning ("Check failed: " ++ message ec) st
    else log debug (dec connection_count ++ " CONNECTIONS") st in
  if is_error ec || (node_count <=? connection_count)
  then set_stopped st
  else st.

(** The lambda of line 112; [now] is what [now()] prints when it runs. *)
Definition handle_send (ec : error_code) (now : string) (st : state)
    : state :=
  if is_error ec
  then log warning ("Send failed: " ++ message ec) st
  else print ("Sent " ++ now ++ endl) st.

(** [tx] is a reference: the transaction object [tx] of [bound_tx].
    Line 110 reads it, line 120 hands it to the channel and line 122
    binds [std::ref] to it in the next handler.  When the object has been
    destroyed the read has no defined behaviour and what is printed and
    sent is not known. *)
Definition send_tx (ec : error_code) (node : channel_ptr) (tx : nat)
    (st : state) : state :=
  if is_error ec then
    let st := log warning ("Setup failed: " ++ message ec) st in
    set_stopped st
  else
    let st :=
      match read_tx tx st with
      | Some t =>
          let st := print ("Sending " ++ hash_transaction t ++ endl) st in
          with_prot (channel_send node (Some t) cb_handle_send) st
      | None =>
          let st := set_undefined st in
          with_prot (channel_send node None cb_handle_send) st
      end in
    with_prot (subscribe_channel (cb_send_tx_ref tx)) st.

(** Calling a stored closure with the arguments of its completion; the
    handler of line 187 passes the transaction it stores. *)
Definition invoke_callback (h : callback) (a : callback_args) (now : string)
    (st : state) : state :=
  match h, a with
  | cb_handle_start, args_error ec => handle_start ec st
  | cb_send_tx object, args_channel ec node => send_tx ec node object st
  | cb_send_tx_ref object, args_channel ec node =>
      send_tx ec node object st
  | cb_check_connection_count node_count, args_count ec connection_count =>
      check_connection_count ec connection_count node_count st
  | cb_handle_send, args_error ec => handle_send ec now st
  | cb_ignore_stop, args_error _ => st
  | _, _ => st
  end.

(** Modelled from the spec: a subscription that has fired is consumed,
    and a completion handler fires once; the session, whose classes are
    libbitcoin's, then no longer holds the handler.  With the handler of
    line 187 goes the copy of the transaction that [std::bind] stored in
    it; the other handlers store nothing that is referred to. *)
Definition consume (h : callback) (st : state) : state :=
  match h with
  | cb_send_tx object => with_bound_tx (destroy object (bound_tx st)) st
  | _ => st
  end.

(** A registered handler is called once and then destroyed; the
    transaction it stores exists while it runs. *)
Definition fire (h : callback) (a : callback_args) (now : string)
    (st : state) : state :=
  consume h (invoke_callback h a now st).

(** ** The environment: completions and signals *)

(** [SIGABRT], [SIGTERM] and [SIGINT] of [<csignal>]. *)
Definition SIGABRT : Z := 6.
Definition SIGTERM : Z := 15.
Definition SIGINT : Z := 2.

(** Modelled from the spec: a registered handler fires once; the oldest
    registered handler of an operation is removed and called, [None] when
    no handler is registered. *)
Definition fire_oldest (hs : list callback)
    (keep : list callback -> state -> state) (a : callback_args)
    (now : string) (st : state) : option state :=
  match hs with
  | [] => None
  | h :: rest => Some (fire h a now (keep rest st))
  end.

Definition keep_start_handlers (hs : list callback) (st : state) : state :=
  with_prot (fun p =>
    mk_protocol (max_outbound p) hs (channel_subscribers p)
                (count_handlers p) (send_handlers p) (stop_handlers p)
                (calls p)) st.

Definition keep_channel_subscribers (hs : list callback) (st : state)
    : state :=
  with_prot (fun p =>
    mk_protocol (max_outbound p) (start_handlers p) hs
                (count_handlers p) (send_handlers p) (stop_handlers p)
                (calls p)) st.

Definition keep_count_handlers (hs : list callback) (st : state) : state :=
  with_prot (fun p =>
    mk_protocol (max_outbound p) (start_handlers p) (channel_subscribers p)
                hs (send_handlers p) (stop_handlers p) (calls p)) st.

Definition keep_send_handlers (hs : list callback) (st : state) : state :=
  with_prot (fun p =>
    mk_protocol (max_outbound p) (start_handlers p) (channel_subscribers p)
                (count_handlers p) hs (stop_handlers p) (calls p)) st.

Definition keep_stop_handlers (hs : list callback) (st : state) : state :=
  with_prot (fun p =>
    mk_protocol (max_outbound p) (start_handlers p) (channel_subscribers p)
                (count_handlers p) (send_handlers p) hs (calls p)) st.

(** Modelled from the spec: a new channel fires every registered
    listener, oldest first. *)
Definition fire_all (hs : list callback) (a : callback_args) (now : string)
    (st : state) : state :=
  fold_left (fun st h => fire h a now st) hs st.

(** Modelled from the spec: what the Protocol Session contract lets the
    session and the channels do with the handlers they hold (the classes
    are libbitcoin's): a handler fires once, with the result of its
    operation; a new channel fires every registered channel listener and
    consumes the registrations; a signal runs the handler installed for
    it.  [None]: the event cannot occur in that state. *)
Definition deliver (e : event) (st : state) : option state :=
  match e with
  | start_done ec =>
      fire_oldest (start_handlers (prot st)) keep_start_handlers
                  (args_error ec) "" st
  | channel_ready ec node =>
      match channel_subscribers (prot st) with
      | [] => None
      | hs => Some (fire_all hs (args_channel ec node) ""
                             (keep_channel_subscribers [] st))
      end
  | count_fetched ec connection_count =>
      fire_oldest (count_handlers (prot st)) keep_count_handlers
                  (args_count ec connection_count) "" st
  | send_done ec now =>
      fire_oldest (send_handlers (prot st)) keep_send_handlers
                  (args_error ec) now st
  | stop_done ec =>
      fire_oldest (stop_handlers (prot st)) keep_stop_handlers
                  (args_error ec) "" st
  | signal_raised sig =>
      if existsb (Z.eqb sig) (handled_signals st)
      then Some (signal_handler sig st)
      else None
  end.

(** ** sendtx_p2p::invoke (lines 157-206) *)

(** Lines 161-167: the bound parameters are read and the first
    transaction is taken; [None] when [front] is applied to an empty
    collection, where the behaviour of the program is undefined. *)
Definition invoke_begin (a : config) : option state :=
  match front (transactions_argument a) with
  | None => None
  | Some tx =>
      Some (mk_state false at_bind_logging [] io_initial protocol_initial
                     a tx false [])
  end.

(** The lambda [work] of lines 195-199. *)
Definition work (st : state) : state :=
  with_prot
    (fetch_connection_count
       (cb_check_connection_count (nodes_option (args st)))) st.

(** Modelled from the spec: [async_client::poll(stopped, 2000, work)] is
    declared in [sx/async_client.hpp], outside the source; the run loop
    re-checks the Stop Flag and re-issues the count poll on a fixed
    cadence, blocks on nothing else, and is left when the flag is true.
    One step of the loop: the test of the flag, the call of [work], or the
    wait; leaving the loop returns to [invoke] at line 202. *)
Definition poll (action : state -> state) (st : state) : option state :=
  match where_ st with
  | at_poll_test =>
      if stopped st
      then Some (with_control at_stop st)
      else Some (with_control at_poll_work st)
  | at_poll_work => Some (with_control at_poll_sleep (action st))
  | at_poll_sleep => Some (with_control at_poll_test st)
  | _ => None
  end.

(** One step of the thread that runs [invoke]; [None] once it has
    returned. *)
Definition main_step (st : state) : option state :=
  match where_ st with
  | at_bind_logging =>
      Some (with_control at_set_max_outbound
             (with_io (bind_logging (logging_debug_setting (args st))
                                    (logging_error_setting (args st))) st))
  | at_set_max_outbound =>
      Some (with_control at_start
             (with_prot
                (set_max_outbound (size_t_wrap (nodes_option (args st) * 6)))
                st))
  | at_start =>
      Some (with_control at_subscribe_channel
             (with_prot (start cb_handle_start) st))
  | at_subscribe_channel =>
      Some (with_control at_signal_abrt
             (with_prot
                (subscribe_channel (cb_send_tx (List.length (bound_tx st))))
                (with_bound_tx (bound_tx st ++ [Some (tx_local st)]) st)))
  | at_signal_abrt => Some (with_control at_signal_term (signal SIGABRT st))
  | at_signal_term => Some (with_control at_signal_int (signal SIGTERM st))
  | at_signal_int => Some (with_control at_poll_test (signal SIGINT st))
  | at_poll_test | at_poll_work | at_poll_sleep => poll work st
  | at_stop =>
      Some (with_control (returned okay)
             (with_prot (stop cb_ignore_stop) st))
  | returned _ => None
  end.

(** A run interleaves the steps of [invoke] with the events of the
    environment.  A handler is one step of a run: the statements of two
    handlers, which the source runs on a pool of four threads, are not
    interleaved. *)
Definition step (a : action) (st : state) : option state :=
  match a with
  | main => main_step st
  | env e => deliver e st
  end.

Fixpoint exec (s : list action) (st : state) : option state :=
  match s with
  | [] => Some st
  | a :: s' =>
      match step a st with
      | Some st' => exec s' st'
      | None => None
      end
  end.

(** The channels of the error-free channel events of a run, in order. *)
Fixpoint channels_delivered (s : list action) : list channel_ptr :=
  match s with
  | [] => []
  | env (channel_ready ec node) :: s' =>
      if is_error ec then channels_delivered s'
      else node :: channels_delivered s'
  | _ :: s' => channels_delivered s'
  end.

(** Whether a run has a channel event that carries an error. *)
Fixpoint channel_error (s : list action) : bool :=
  match s with
  | [] => false
  | env (channel_ready ec _) :: s' => is_error ec || channel_error s'
  | _ :: s' => channel_error s'
  end.

(** Whether line 186 has been executed. *)
Definition subscribed (c : control) : bool :=
  match c with
  | at_bind_logging | at_set_max_outbound | at_start
  | at_subscribe_channel => false
  | _ => true
  end.

(** The state of an invocation with parameters [a] after the run [s]. *)
Definition invoke (a : config) (s : list action) : option state :=
  match invoke_begin a with
  | Some st0 => exec s st0
  | None => None
  end.

(** The steps that can raise the Stop Flag, for the target [T]: a
    signal, a failed start, a failed channel setup, and a connection count
    that fails or reaches the target. *)
Definition raises_stop (T : Z) (a : action) : bool :=
  match a with
  | env (signal_raised _) => true
  | env (start_done ec) => is_error ec
  | env (channel_ready ec _) => is_error ec
  | env (count_fetched ec connection_count) =>
      is_error ec || (T <=? connection_count)
  | _ => false
  end.

(** The number of steps of the thread in [invoke] in a run. *)
Fixpoint main_steps (s : list action) : nat :=
  match s with
  | [] => O
  | main :: s' => S (main_steps s')
  | env _ :: s' => main_steps s'
  end.

(** The number of steps of [invoke] left before it returns, once the Stop
    Flag is true. *)
Definition steps_to_return (c : control) : nat :=
  match c with
  | at_bind_logging => 9
  | at_set_max_outbound => 8
  | at_start => 7
  | at_subscribe_channel => 6
  | at_signal_abrt => 5
  | at_signal_term => 4
  | at_signal_int => 3
  | at_poll_test => 2
  | at_poll_work => 4
  | at_poll_sleep => 3
  | at_stop => 1
  | returned _ => 0
  end.

(** Two states agree on the control state: the flag, the point of
    control, the signal handlers, the session and the parameters. *)
Definition same_control (st st' : state) : Prop :=
  stopped st' = stopped st
  /\ where_ st' = where_ st
  /\ handled_signals st' = handled_signals st
  /\ prot st' = prot st
  /\ args st' = args st
  /\ tx_local st' = tx_local st.

Local Open Scope list_scope.

(** Whether a run has no channel event at all. *)
Fixpoint no_channel_event (s : list action) : bool :=
  match s with
  | [] => true
  | env (channel_ready _ _) :: _ => false
  | _ :: s' => no_channel_event s'
  end.

(** The handler that is registered after the run [s]: the handler of
    line 187 until a channel has been delivered, then a handler of line
    122, which refers to the transaction stored in the first. *)
Definition armed (s : list action) : callback :=
  if no_channel_event s then cb_send_tx 0 else cb_send_tx_ref 0.

(** What the channels [l], delivered in that order, are sent: the first
    the transaction [tx], those after it what is read from the destroyed
    object. *)
Definition sent_to (tx : transaction_type) (l : list channel_ptr)
    : list (channel_ptr * option transaction_type) :=
  match l with
  | [] => []
  | node :: l' => (node, Some tx) :: map (fun n => (n, None)) l'
  end.

(** What holds of the state after the run [s] of an invocation with
    parameters [a0] whose transaction is [tx]. *)
Record run_inv (a0 : config) (tx : transaction_type) (s : list action)
    (st : state) : Prop := mk_run_inv {
  inv_args : args st = a0;
  inv_tx : tx_local st = tx;
  inv_start : Forall (eq cb_handle_start) (start_handlers (prot st));
  inv_count :
    Forall (eq (cb_check_connection_count (nodes_option a0)))
           (count_handlers (prot st));
  inv_send : Forall (eq cb_handle_send) (send_handlers (prot st));
  inv_stop : Forall (eq cb_ignore_stop) (stop_handlers (prot st));
  inv_before :
    subscribed (where_ st) = false ->
    no_channel_event s = true /\ bound_tx st = [];
  inv_bound :
    subscribed (where_ st) = true ->
    bound_tx st = [if no_channel_event s then Some tx else None];
  inv_subscribers :
    channel_subscribers (prot st)
    = if subscribed (where_ st) && negb (channel_error s)
      then [armed s] else [];
  inv_sends :
    sends (calls (prot st)) = sent_to tx (channels_delivered s);
  inv_subscriptions :
    subscriptions (calls (prot st))
    = ((if subscribed (where_ st) then 1 else 0)
       + List.length (channels_delivered s))%nat;
  inv_returned :
    forall r, where_ st = returned r ->
              r = okay /\ In call_stop (calls (prot st))
}.

(** ** Further observations of a run *)

(** The calls of a history that set up, start and stop the session. *)
Fixpoint lifecycle (l : list api_call) : list api_call :=
  match l with
  | [] => []
  | call_set_max_outbound n :: l' => call_set_max_outbound n :: lifecycle l'
  | call_start :: l' => call_start :: lifecycle l'
  | call_stop :: l' => call_stop :: lifecycle l'
  | _ :: l' => lifecycle l'
  end.

(** How many of the lines 182, 185 and 203 [invoke] has executed. *)
Definition stage (c : control) : nat :=
  match c with
  | at_bind_logging | at_set_max_outbound => 0
  | at_start => 1
  | returned _ => 3
  | _ => 2
  end.

(** Whether the lines 190-192 have been executed. *)
Definition signals_installed (c : control) : bool :=
  match c with
  | at_poll_test | at_poll_work | at_poll_sleep | at_stop | returned _ =>
      true
  | _ => false
  end.

(** The signals whose handler [invoke] has installed at a point. *)
Definition installed_signals (c : control) : list Z :=
  match c with
  | at_bind_logging | at_set_max_outbound | at_start
  | at_subscribe_channel | at_signal_abrt => []
  | at_signal_term => [SIGABRT]
  | at_signal_int => [SIGTERM; SIGABRT]
  | _ => [SIGINT; SIGTERM; SIGABRT]
  end.

(** The message a step of a run passes to a logger, for the target [T]:
    lines 68, 77, 82, 91, 93, 105 and 115. *)
Definition logged (T : Z) (a : action) : list (log_level * string) :=
  match a with
  | env (signal_raised sig) => [(info, ("Caught signal: " ++ dec sig)%string)]
  | env (start_done ec) =>
      if is_error ec
      then [(warning, ("Start failed: " ++ message ec)%string)]
      else [(debug, "Started.")]
  | env (count_fetched ec connection_count) =>
      if is_error ec
      then [(warning, ("Check failed: " ++ message ec)%string)]
      else [(debug, (dec connection_count ++ " CONNECTIONS")%string)]
  | env (channel_ready ec _) =>
      if is_error ec
      then [(warning, ("Setup failed: " ++ message ec)%string)]
      else []
  | env (send_done ec _) =>
      if is_error ec
      then [(warning, ("Send failed: " ++ message ec)%string)]
      else []
  | _ => []
  end.

(** The output function [bind_logging] leaves for a level whose path
    is [path] and whose bound function would be [f]. *)
Definition sink (path : string) (f : output_function) : output_function :=
  if empty path then library_default else f.

(** Whether a message goes to the output function of the library: its
    level is one of a path that is empty. *)
Definition unrouted (debug_path error_path : string)
    (m : log_level * string) : bool :=
  match fst m with
  | debug | info => empty debug_path
  | _ => empty error_path
  end.

(** Whether a run has used an object after its destruction: it has
    logged a message of a level bound to a file, or it has delivered a
    second channel without error. *)
Definition uses_destroyed (a0 : config) (s : list action) : bool :=
  existsb (fun m => negb (unrouted (logging_debug_setting a0)
                                   (logging_error_setting a0) m))
          (flat_map (logged (nodes_option a0)) s)
  || (2 <=? List.length (channels_delivered s))%nat.

(** What holds of the loggers and streams after the run [s]. *)
Record io_inv (a0 : config) (tx : transaction_type) (s : list action)
    (st : state) : Prop := mk_io_inv {
  io_begin :
    where_ st = at_bind_logging ->
    s = []
    /\ st = mk_state false at_bind_logging [] io_initial protocol_initial
                     a0 tx false [];
  io_debug_out :
    where_ st <> at_bind_logging ->
    debug_out (io st)
    = sink (logging_debug_setting a0) (bound_output_to_file debug_file);
  io_info_out :
    where_ st <> at_bind_logging ->
    info_out (io st)
    = sink (logging_debug_setting a0) (bound_output_to_file debug_file);
  io_warning_out :
    where_ st <> at_bind_logging ->
    warning_out (io st)
    = sink (logging_error_setting a0) (bound_output_to_file error_file);
  io_error_out :
    where_ st <> at_bind_logging ->
    error_out (io st)
    = sink (logging_error_setting a0)
           (bound_output_cerr_and_file error_file);
  io_fatal_out :
    where_ st <> at_bind_logging ->
    fatal_out (io st)
    = sink (logging_error_setting a0)
           (bound_output_cerr_and_file error_file);
  io_debug_stream : debug_stream (io st) = mk_ofstream "" false;
  io_error_stream : error_stream (io st) = mk_ofstream "" false;
  io_default_out :
    default_out (io st)
    = map (fun m => (fst m, "", snd m))
          (filter (unrouted (logging_debug_setting a0)
                            (logging_error_setting a0))
                  (flat_map (logged (nodes_option a0)) s));
  io_undefined : undefined st = uses_destroyed a0 s
}.

(** * Properties *)

(** ** Streams and sinks *)

Lemma append_assoc (a b c : string) :
  ((a ++ b) ++ c)%string = (a ++ b ++ c)%string.
Proof.
  induction a as [|ch a IH]; simpl.
  - reflexivity.
  - now rewrite IH.
Qed.

Lemma empty_true (s : string) : empty s = true -> s = EmptyString.
Proof. destruct s; simpl; [reflexivity | discriminate]. Qed.

Lemma put_line (os : ostream) (level : log_level) (domain body : string) :
  put (put (put (if negb (empty domain)
                 then put (put (put (put os (level_repr level)) " [") domain) "]"
                 else put os (level_repr level)) ": ") body) endl
  = (os ++ contract_line level domain body ++ endl)%string.
Proof.
  unfold contract_line, put.
  destruct (empty domain); simpl negb; cbv iota;
    repeat rewrite append_assoc; reflexivity.
Qed.

(** The file after [output_to_file]. *)
Lemma output_to_file_line (file : ostream) (level : log_level)
    (domain body : string) :
  output_to_file file level domain body
  = (if empty body then file
     else (file ++ contract_line level domain body ++ endl)%string).
Proof.
  unfold output_to_file. destruct (empty body); [reflexivity|].
  apply put_line.
Qed.

(** The console after [output_cerr_and_file]. *)
Lemma output_cerr_and_file_console (file console : ostream)
    (level : log_level) (domain body : string) :
  snd (output_cerr_and_file file console level domain body)
  = (if empty body then console
     else (console ++ contract_line level domain body ++ endl)%string).
Proof.
  unfold output_cerr_and_file. destruct (empty body); [reflexivity|].
  cbn [snd]. unfold contract_line, put.
  destruct (empty domain); simpl negb; cbv iota;
    repeat rewrite append_assoc; simpl; reflexivity.
Qed.

(** [output_cerr_and_file] never writes to the file it is given. *)
Lemma output_cerr_and_file_file (file console : ostream) (level : log_level)
    (domain body : string) :
  fst (output_cerr_and_file file console level domain body) = file.
Proof.
  unfold output_cerr_and_file. destruct (empty body); reflexivity.
Qed.

(** C9.  For every level, domain and body, both sinks emit nothing when
    the body is empty, and otherwise emit exactly one line made of the
    level representation, then [" [" ++ domain ++ "]"] exactly when the
    domain is not empty, then [": "] and the body: [output_to_file] to its
    file, [output_cerr_and_file] to the console. *)
Theorem sink_line_format :
  forall (file console : ostream) (level : log_level) (domain body : string),
    output_to_file file level domain body
    = (if empty body then file
       else (file ++ contract_line level domain body ++ endl)%string)
    /\ snd (output_cerr_and_file file console level domain body)
       = (if empty body then console
          else (console ++ contract_line level domain body ++ endl)%string).
Proof.
  intros file console level domain body. split.
  - apply output_to_file_line.
  - apply output_cerr_and_file_console.
Qed.

(** What [bind_logging] installs: with a debug path, the debug file for
    the debug and info levels; with an error path, [output_to_file] on the
    error file for warnings and [output_cerr_and_file] on it for errors
    and fatal errors; the levels of an empty path keep their output
    function. *)
Lemma bind_logging_installs (debug_path error_path : string) (o : io_state) :
  let o' := bind_logging debug_path error_path o in
  (empty debug_path = false ->
     debug_out o' = bound_output_to_file debug_file
     /\ info_out o' = bound_output_to_file debug_file)
  /\ (empty error_path = false ->
     warning_out o' = bound_output_to_file error_file
     /\ error_out o' = bound_output_cerr_and_file error_file
     /\ fatal_out o' = bound_output_cerr_and_file error_file)
  /\ (empty debug_path = true ->
     debug_out o' = debug_out o /\ info_out o' = info_out o
     /\ debug_stream o' = debug_stream o)
  /\ (empty error_path = true ->
     warning_out o' = warning_out o /\ error_out o' = error_out o
     /\ fatal_out o' = fatal_out o /\ error_stream o' = error_stream o).
Proof.
  unfold bind_logging.
  destruct (empty debug_path), (empty error_path); simpl;
    repeat split; intros; try discriminate; reflexivity.
Qed.

(** When [bind_logging] returns, each file it has opened is empty and
    its stream object no longer exists. *)
Lemma bind_logging_destroys (debug_path error_path : string) (o : io_state) :
  let o' := bind_logging debug_path error_path o in
  (empty debug_path = false -> debug_stream o' = mk_ofstream "" false)
  /\ (empty error_path = false -> error_stream o' = mk_ofstream "" false)
  /\ cerr o' = cerr o /\ cout o' = cout o
  /\ default_out o' = default_out o.
Proof.
  unfold bind_logging.
  destruct (empty debug_path), (empty error_path); simpl;
    repeat split; intros; try discriminate; reflexivity.
Qed.

(** After [bind_logging] with an error path, a message of level error or
    fatal reaches the console and never the error file, which stays
    empty. *)
Lemma bind_logging_error_console_only (debug_path error_path : string)
    (o : io_state) (level : log_level) (domain body : string) :
  empty error_path = false ->
  level = error \/ level = fatal ->
  let o1 := bind_logging debug_path error_path o in
  exists o2,
    log_to level domain body o1 = Some o2
    /\ error_stream o2 = mk_ofstream "" false
    /\ cerr o2
       = (if empty body then cerr o
          else (cerr o ++ contract_line level domain body ++ endl)%string).
Proof.
  intros He Hl o1.
  destruct (bind_logging_installs debug_path error_path o)
    as (_ & Hb & _ & _).
  destruct (Hb He) as (_ & Herr & Hfat). fold o1 in Herr, Hfat.
  destruct (bind_logging_destroys debug_path error_path o)
    as (_ & Hd & Hc & _ & _).
  specialize (Hd He). fold o1 in Hd, Hc.
  assert (Hout : out_of level o1 = bound_output_cerr_and_file error_file)
    by (destruct Hl; subst level; assumption).
  unfold log_to. rewrite Hout. eexists. split; [reflexivity|].
  simpl. rewrite output_cerr_and_file_file, Hd. split; [reflexivity|].
  rewrite output_cerr_and_file_console, Hc. reflexivity.
Qed.

(** ** The handlers *)

Lemma same_control_refl (st : state) : same_control st st.
Proof. repeat split. Qed.

Lemma same_control_log (level : log_level) (body : string) (st : state) :
  same_control st (log level body st).
Proof.
  unfold log. destruct (log_to level "" body (io st)); repeat split.
Qed.

Lemma same_control_print (text : string) (st : state) :
  same_control st (print text st).
Proof. repeat split. Qed.

(** Writing a message changes no output function. *)
Lemma log_to_outs (level l : log_level) (domain body : string)
    (o o' : io_state) :
  log_to level domain body o = Some o' ->
  out_of l o' = out_of l o.
Proof.
  unfold log_to.
  destruct (out_of level o) as [|f|f].
  - intro H. injection H as <-. destruct l; reflexivity.
  - destruct (empty body); [intro H; now injection H as <-|].
    destruct (alive (stream_of f o)); [|discriminate].
    intro H. injection H as <-. destruct f, l; reflexivity.
  - intro H. injection H as <-. destruct f, l; reflexivity.
Qed.

Lemma log_outs (level l : log_level) (body : string) (st : state) :
  out_of l (io (log level body st)) = out_of l (io st).
Proof.
  unfold log. destruct (log_to level "" body (io st)) as [o'|] eqn:E.
  - simpl. now apply log_to_outs with (1 := E).
  - reflexivity.
Qed.

(** C8.  Whatever the outcome of a send, the completion callback of line
    112 leaves the Stop Flag, the point of control, the installed signal
    handlers, the whole session (channel subscription included) and the
    parameters of the run as they were, and changes no output function:
    it only writes a message. *)
Theorem handle_send_only_logs :
  forall (ec : error_code) (now : string) (st : state),
    same_control st (handle_send ec now st)
    /\ (forall l, out_of l (io (handle_send ec now st)) = out_of l (io st))
    /\ channel_subscribers (prot (handle_send ec now st))
       = channel_subscribers (prot st).
Proof.
  intros ec now st. unfold handle_send.
  destruct (is_error ec).
  - pose proof (same_control_log warning
                  ("Send failed: " ++ message ec)%string st) as Hc.
    split; [exact Hc|]. split.
    + intro l. apply log_outs.
    + destruct Hc as (_ & _ & _ & -> & _). reflexivity.
  - split; [apply same_control_print|]. split; [|reflexivity].
    intro l. destruct l; reflexivity.
Qed.

Lemma is_error_true (ec : error_code) : is_error ec = true <-> ec <> 0.
Proof.
  unfold is_error. rewrite negb_true_iff, Z.eqb_neq. reflexivity.
Qed.

(** The effect of [check_connection_count] on the flag and the session. *)
Lemma check_connection_count_effect (ec : error_code) (c T : Z) (st : state) :
  stopped (check_connection_count ec c T st)
  = (is_error ec || (T <=? c)) || stopped st
  /\ prot (check_connection_count ec c T st) = prot st
  /\ where_ (check_connection_count ec c T st) = where_ st.
Proof.
  unfold check_connection_count.
  destruct (is_error ec); simpl.
  - destruct (same_control_log warning
                ("Check failed: " ++ message ec)%string st)
      as (_ & Hw & _ & Hp & _).
    repeat split; assumption.
  - destruct (same_control_log debug
                (dec c ++ " CONNECTIONS")%string st)
      as (Hs & Hw & _ & Hp & _).
    destruct (T <=? c); simpl; repeat split; assumption.
Qed.

(** C3.  For every invocation of the completion handler with error [ec]
    and count [c] against the target [T]: the invocation sets the Stop
    Flag exactly when [ec] is an error or [c >= T] (the flag afterwards is
    that condition or the flag before); an error gives the same flag as a
    count that reaches the target; and the handler issues no new fetch:
    the session and the point of control are unchanged. *)
Theorem check_connection_count_stops :
  forall (ec : error_code) (c T : Z) (st : state),
    let st' := check_connection_count ec c T st in
    stopped st' = (is_error ec || (T <=? c)) || stopped st
    /\ (stopped st' = true <-> (ec <> 0 \/ c >= T) \/ stopped st = true)
    /\ (ec <> 0 -> stopped st' = stopped (check_connection_count 0 T T st))
    /\ prot st' = prot st
    /\ where_ st' = where_ st.
Proof.
  intros ec c T st st'.
  destruct (check_connection_count_effect ec c T st) as (Hs & Hp & Hw).
  fold st' in Hs, Hp, Hw.
  split; [exact Hs|]. split; [|split; [|split; assumption]].
  - rewrite Hs, !orb_true_iff, is_error_true, Z.leb_le. intuition lia.
  - intro Hec.
    destruct (check_connection_count_effect 0 T T st) as (Hs0 & _).
    rewrite Hs, Hs0. apply is_error_true in Hec. rewrite Hec.
    rewrite Z.leb_refl. reflexivity.
Qed.


(** ** Runs *)

Lemma exec_app (s1 s2 : list action) (st : state) :
  exec (s1 ++ s2) st
  = match exec s1 st with
    | Some st' => exec s2 st'
    | None => None
    end.
Proof.
  revert st. induction s1 as [|a s1 IH]; intro st; simpl.
  - reflexivity.
  - destruct (step a st); [apply IH | reflexivity].
Qed.

Lemma sends_app (l1 l2 : list api_call) :
  sends (l1 ++ l2) = sends l1 ++ sends l2.
Proof.
  induction l1 as [|c l1 IH]; simpl; [reflexivity|].
  destruct c; simpl; now rewrite ?IH.
Qed.

Lemma subscriptions_app (l1 l2 : list api_call) :
  subscriptions (l1 ++ l2) = (subscriptions l1 + subscriptions l2)%nat.
Proof.
  induction l1 as [|c l1 IH]; simpl; [reflexivity|].
  destruct c; simpl; now rewrite ?IH.
Qed.

Lemma channels_delivered_app (s1 s2 : list action) :
  channels_delivered (s1 ++ s2)
  = channels_delivered s1 ++ channels_delivered s2.
Proof.
  induction s1 as [|a s1 IH]; simpl; [reflexivity|].
  destruct a as [|e]; [assumption|].
  destruct e; try assumption.
  destruct (is_error ec); simpl; now rewrite ?IH.
Qed.

Lemma channel_error_app (s1 s2 : list action) :
  channel_error (s1 ++ s2) = channel_error s1 || channel_error s2.
Proof.
  induction s1 as [|a s1 IH]; simpl; [reflexivity|].
  destruct a as [|e]; [assumption|].
  destruct e; try assumption.
  now rewrite IH, orb_assoc.
Qed.

Lemma no_channel_event_app (s1 s2 : list action) :
  no_channel_event (s1 ++ s2) = no_channel_event s1 && no_channel_event s2.
Proof.
  induction s1 as [|a s1 IH]; simpl; [reflexivity|].
  destruct a as [|e]; [assumption|].
  destruct e; try assumption. reflexivity.
Qed.

Lemma no_channel_event_delivered (s : list action) :
  no_channel_event s = true -> channels_delivered s = [].
Proof.
  induction s as [|a s IH]; simpl; [reflexivity|].
  destruct a as [|e]; [assumption|].
  destruct e; try assumption. discriminate.
Qed.

Lemma no_channel_event_error (s : list action) :
  no_channel_event s = true -> channel_error s = false.
Proof.
  induction s as [|a s IH]; simpl; [reflexivity|].
  destruct a as [|e]; [assumption|].
  destruct e; try assumption. discriminate.
Qed.

(** A run with a channel event and none with an error has delivered a
    channel. *)
Lemma delivered_some (s : list action) :
  channel_error s = false -> no_channel_event s = false ->
  channels_delivered s <> [].
Proof.
  induction s as [|a s IH]; simpl; [discriminate|].
  destruct a as [|e]; [assumption|].
  destruct e; try assumption.
  destruct (is_error ec); simpl; [discriminate|]. discriminate.
Qed.

Lemma sent_to_first (tx : transaction_type) (node : channel_ptr) :
  sent_to tx ([] ++ [node]) = [] ++ [(node, Some tx)].
Proof. reflexivity. Qed.

Lemma sent_to_later (tx : transaction_type) (l : list channel_ptr)
    (node : channel_ptr) :
  l <> [] -> sent_to tx (l ++ [node]) = sent_to tx l ++ [(node, None)].
Proof.
  destruct l as [|n l]; [intro H; now elim H|]. intros _. simpl.
  now rewrite map_app.
Qed.

Lemma run_inv_begin (a0 : config) (st0 : state) :
  invoke_begin a0 = Some st0 -> run_inv a0 (tx_local st0) [] st0.
Proof.
  unfold invoke_begin. destruct (front (transactions_argument a0)) as [tx|];
    [|discriminate].
  intro H. injection H as <-.
  constructor; simpl; auto; discriminate.
Qed.

Ltac close_inv :=
  match goal with
  | |- Forall _ (_ ++ _) =>
      apply Forall_app; split; [assumption | repeat constructor]
  | |- @eq nat _ _ => simpl in *; lia
  | |- forall r, returned _ = returned r -> _ =>
      let r := fresh "r" in
      let H := fresh "H" in
      intros r H; injection H as <-; split;
      [reflexivity | apply in_or_app; right; left; reflexivity]
  | _ => auto; try discriminate
  end.

Lemma run_inv_main (a0 : config) (tx : transaction_type) (s : list action)
    (st st' : state) :
  run_inv a0 tx s st -> main_step st = Some st' ->
  run_inv a0 tx (s ++ [main]) st'.
Proof.
  intros [Ha Ht Hst Hc Hse Hsp Hb Hbd Hsu Hsd Hsub Hr] Hm.
  destruct st as [b c sg o p a t u bd].
  destruct p as [mo sh cs ch sdh sph cl].
  simpl in *. subst a t.
  unfold main_step, poll, work in Hm; simpl in Hm.
  destruct c; try discriminate; try (destruct b);
    injection Hm as <-;
    try (destruct (Hb eq_refl) as [Hne ->];
         pose proof (no_channel_event_error _ Hne) as Hnerr);
    try specialize (Hbd eq_refl);
    simpl in Hsu; subst cs;
    (constructor; unfold armed; simpl;
     rewrite ?channels_delivered_app, ?channel_error_app,
       ?no_channel_event_app, ?app_nil_r,
       ?orb_false_r, ?andb_true_r, ?sends_app, ?subscriptions_app; simpl;
     rewrite ?app_nil_r, ?Nat.add_0_r, ?Hne, ?Hnerr; close_inv).
Qed.

Ltac norm_inv :=
  constructor; unfold armed; simpl;
  rewrite ?channels_delivered_app, ?channel_error_app,
    ?no_channel_event_app, ?app_nil_r,
    ?orb_false_r, ?andb_true_r, ?sends_app, ?subscriptions_app, ?map_app;
  simpl;
  rewrite ?app_nil_r, ?Nat.add_0_r, ?orb_false_r, ?andb_true_r,
    ?length_app; simpl.

Ltac close_env Hr :=
  match goal with
  | |- forall r, _ = returned r -> _ =>
      let r := fresh "r" in
      let H := fresh "H" in
      intros r H; destruct (Hr r H); split;
      [assumption | rewrite ?in_app_iff; auto]
  | |- _ -> _ => intros; try discriminate; try congruence; auto
  | |- Forall _ (_ ++ _) =>
      apply Forall_app; split; [assumption | repeat constructor]
  | |- @eq nat _ _ => simpl in *; lia
  | _ => try congruence; auto
  end.

(** The cases of a logged message: it is written, or it goes through a
    destroyed stream. *)
Ltac case_log :=
  unfold log;
  repeat match goal with
         | |- context [match log_to ?l ?d ?b ?o with _ => _ end] =>
             destruct (log_to l d b o)
         end;
  simpl.

Lemma run_inv_env (a0 : config) (tx : transaction_type) (s : list action)
    (e : event) (st st' : state) :
  run_inv a0 tx s st -> deliver e st = Some st' ->
  run_inv a0 tx (s ++ [env e]) st'.
Proof.
  intros [Ha Ht Hst Hc Hse Hsp Hb Hbd Hsu Hsd Hsub Hr] Hd.
  destruct st as [b c sg o p a t u bd].
  destruct p as [mo sh cs ch sdh sph cl].
  simpl in *. subst a t.
  destruct e as [ec|ec node|ec cnt|ec now|ec|sig]; simpl in Hd.
  - (* start_done *)
    destruct sh as [|h sh]; [discriminate|].
    inversion Hst as [|? ? <- Hst']; subst.
    injection Hd as <-. unfold fire. simpl. unfold handle_start.
    destruct (is_error ec); case_log; norm_inv; close_env Hr.
  - (* channel_ready *)
    destruct (subscribed c) eqn:Hc'; simpl in Hsu;
      [|subst cs; discriminate].
    destruct (channel_error s) eqn:Herr; simpl in Hsu;
      [subst cs; discriminate|].
    specialize (Hbd eq_refl). subst cs bd. clear Hb.
    unfold armed in Hd.
    destruct (no_channel_event s) eqn:Hne.
    + (* the handler of line 187 *)
      pose proof (no_channel_event_delivered s Hne) as Hcd.
      rewrite Hcd in *.
      injection Hd as <-. unfold fire_all, fire. simpl. unfold send_tx.
      destruct (is_error ec) eqn:E; simpl.
      * case_log; norm_inv; rewrite ?Hc', ?E, ?Hne, ?Hcd, ?Herr; simpl;
          close_env Hr.
      * unfold read_tx. simpl.
        norm_inv; rewrite ?Hc', ?E, ?Hne, ?Hcd, ?Herr, ?Hsd; simpl;
          close_env Hr.
    + (* a handler of line 122 *)
      pose proof (delivered_some s Herr Hne) as Hcd.
      injection Hd as <-. unfold fire_all, fire. simpl. unfold send_tx.
      destruct (is_error ec) eqn:E; simpl.
      * case_log; norm_inv; rewrite ?Hc', ?E, ?Hne, ?Herr; simpl;
          rewrite ?app_nil_r; close_env Hr.
      * unfold read_tx. simpl.
        norm_inv; rewrite ?Hc', ?E, ?Hne, ?Herr; simpl;
          rewrite ?sent_to_later by assumption; rewrite ?Hsd;
          close_env Hr.
  - (* count_fetched *)
    destruct ch as [|h ch]; [discriminate|].
    inversion Hc as [|? ? <- Hc'']; subst.
    injection Hd as <-. unfold fire. simpl. unfold check_connection_count.
    destruct (is_error ec); simpl;
      try destruct (nodes_option a0 <=? cnt); case_log; norm_inv;
      close_env Hr.
  - (* send_done *)
    destruct sdh as [|h sdh]; [discriminate|].
    inversion Hse as [|? ? <- Hse']; subst.
    injection Hd as <-. unfold fire. simpl. unfold handle_send.
    destruct (is_error ec); case_log; norm_inv; close_env Hr.
  - (* stop_done *)
    destruct sph as [|h sph]; [discriminate|].
    inversion Hsp as [|? ? <- Hsp']; subst.
    injection Hd as <-. norm_inv; close_env Hr.
  - (* signal_raised *)
    destruct (existsb (Z.eqb sig) sg); [|discriminate].
    injection Hd as <-. unfold signal_handler. case_log.
    all: norm_inv; close_env Hr.
Qed.

Lemma run_inv_step (a0 : config) (tx : transaction_type) (s : list action)
    (a : action) (st st' : state) :
  run_inv a0 tx s st -> step a st = Some st' ->
  run_inv a0 tx (s ++ [a]) st'.
Proof.
  destruct a as [|e]; simpl.
  - apply run_inv_main.
  - apply run_inv_env.
Qed.

(** The invariant holds after every run of an invocation. *)
Lemma run_inv_exec (a0 : config) (st0 : state) (s : list action) :
  invoke_begin a0 = Some st0 ->
  forall st, exec s st0 = Some st -> run_inv a0 (tx_local st0) s st.
Proof.
  intro Hb. induction s as [|a s IH] using rev_ind; intros st He.
  - injection He as <-. now apply run_inv_begin.
  - rewrite exec_app in He.
    destruct (exec s st0) as [st1|]; [|discriminate].
    simpl in He. destruct (step a st1) as [st2|] eqn:Hs; [|discriminate].
    injection He as <-.
    eapply run_inv_step; eauto.
Qed.

Lemma invoke_run_inv (a0 : config) (s : list action) (st : state) :
  invoke a0 s = Some st ->
  exists st0, invoke_begin a0 = Some st0
              /\ front (transactions_argument a0) = Some (tx_local st0)
              /\ stopped st0 = false
              /\ exec s st0 = Some st
              /\ run_inv a0 (tx_local st0) s st.
Proof.
  unfold invoke. destruct (invoke_begin a0) as [st0|] eqn:Hb; [|discriminate].
  intro He. exists st0.
  split; [reflexivity|]. split; [|split; [|split; [assumption|]]].
  - unfold invoke_begin in Hb.
    destruct (front (transactions_argument a0)); [|discriminate].
    injection Hb as <-. reflexivity.
  - unfold invoke_begin in Hb.
    destruct (front (transactions_argument a0)); [|discriminate].
    injection Hb as <-. reflexivity.
  - now apply run_inv_exec.
Qed.

Lemma invoke_snoc (a0 : config) (s : list action) (a : action) (st' : state) :
  invoke a0 (s ++ [a]) = Some st' ->
  exists st, invoke a0 s = Some st /\ step a st = Some st'.
Proof.
  unfold invoke. destruct (invoke_begin a0) as [st0|]; [|discriminate].
  rewrite exec_app. destruct (exec s st0) as [st|]; [|discriminate].
  simpl. destruct (step a st) as [st2|] eqn:Hs; [|discriminate].
  intro H. injection H as <-. exists st. split; [reflexivity | assumption].
Qed.

(** ** The Stop Flag *)

(** A step of the thread in [invoke] does not touch the flag. *)
Lemma main_step_stopped (st st' : state) :
  main_step st = Some st' -> stopped st' = stopped st.
Proof.
  unfold main_step, poll, work.
  destruct (where_ st); try destruct (stopped st) eqn:E; intro H;
    try discriminate; injection H as <-; simpl; auto.
Qed.

(** In a run, a step changes the flag as [raises_stop] says. *)
Lemma step_stopped (a0 : config) (tx : transaction_type) (s : list action)
    (a : action) (st st' : state) :
  run_inv a0 tx s st -> step a st = Some st' ->
  stopped st' = stopped st || raises_stop (nodes_option a0) a.
Proof.
  intros [Ha Ht Hst Hc Hse Hsp Hb Hbd Hsu Hsd Hsub Hr] Hs.
  destruct a as [|e]; simpl in Hs.
  - rewrite (main_step_stopped _ _ Hs). simpl. now rewrite orb_false_r.
  - destruct st as [b c sg o p a t u bd].
    destruct p as [mo sh cs ch sdh sph cl].
    simpl in *. subst a t.
    destruct e as [ec|ec node|ec cnt|ec now|ec|sig]; simpl in Hs.
    + destruct sh as [|h sh]; [discriminate|].
      inversion Hst as [|? ? <- Hst']; subst.
      injection Hs as <-. unfold fire. simpl. unfold handle_start.
      destruct (is_error ec); case_log;
        now rewrite ?orb_true_r, ?orb_false_r.
    + destruct cs as [|h cs]; [discriminate|].
      destruct (subscribed c && negb (channel_error s)); [|discriminate].
      injection Hsu as -> ->.
      injection Hs as <-. unfold fire_all, fire, armed. simpl.
      destruct (no_channel_event s); simpl; unfold send_tx;
        destruct (is_error ec); simpl; case_log;
        try destruct (read_tx 0 _); simpl;
        now rewrite ?orb_true_r, ?orb_false_r.
    + destruct ch as [|h ch]; [discriminate|].
      inversion Hc as [|? ? <- Hc'']; subst.
      injection Hs as <-. unfold fire. simpl.
      unfold check_connection_count.
      destruct (is_error ec); simpl;
        try destruct (nodes_option a0 <=? cnt); case_log;
        now rewrite ?orb_true_r, ?orb_false_r.
    + destruct sdh as [|h sdh]; [discriminate|].
      inversion Hse as [|? ? <- Hse']; subst.
      injection Hs as <-. unfold fire. simpl. unfold handle_send.
      destruct (is_error ec); case_log; now rewrite ?orb_false_r.
    + destruct sph as [|h sph]; [discriminate|].
      inversion Hsp as [|? ? <- Hsp']; subst.
      injection Hs as <-. simpl. now rewrite ?orb_false_r.
    + destruct (existsb (Z.eqb sig) sg); [|discriminate].
      injection Hs as <-. unfold signal_handler. case_log.
      all: now rewrite orb_true_r.
Qed.

(** Once the flag is true it stays true for the rest of the run. *)
Lemma exec_stopped (a0 : config) (tx : transaction_type) (s2 : list action) :
  forall (s1 : list action) (st st' : state),
    run_inv a0 tx s1 st -> exec s2 st = Some st' ->
    stopped st = true -> stopped st' = true.
Proof.
  induction s2 as [|a s2 IH]; intros s1 st st' Hi He Hs; simpl in He.
  - injection He as <-. assumption.
  - destruct (step a st) as [st1|] eqn:Hst; [|discriminate].
    apply (IH (s1 ++ [a]) st1 st').
    + eapply run_inv_step; eauto.
    + assumption.
    + rewrite (step_stopped _ _ _ _ _ _ Hi Hst), Hs. reflexivity.
Qed.

(** C4.  The Stop Flag is false when [invoke] begins; every step of a
    run, of the thread in [invoke] or of the environment, leaves a true
    flag true; and a step raises the flag exactly when it is a signal, a
    start completion with an error, a channel event with an error, or a
    connection count with an error or a count that reaches the target. *)
Theorem stop_flag_set_once :
  forall (a0 : config) (s : list action) (a : action) (st' : state),
    invoke a0 (s ++ [a]) = Some st' ->
    exists st,
      invoke a0 s = Some st
      /\ invoke a0 [] <> None
      /\ (forall st0, invoke a0 [] = Some st0 -> stopped st0 = false)
      /\ (stopped st = true -> stopped st' = true)
      /\ (stopped st = false ->
          (stopped st' = true <->
           (exists sig, a = env (signal_raised sig))
           \/ (exists ec, a = env (start_done ec) /\ ec <> 0)
           \/ (exists ec node, a = env (channel_ready ec node) /\ ec <> 0)
           \/ (exists ec c, a = env (count_fetched ec c)
                            /\ (ec <> 0 \/ c >= nodes_option a0)))).
Proof.
  intros a0 s a st' Hrun.
  destruct (invoke_snoc _ _ _ _ Hrun) as (st & Hs & Hstep).
  exists st. split; [assumption|].
  destruct (invoke_run_inv _ _ _ Hs) as (st0 & Hb & _ & Hf0 & _ & Hinv).
  pose proof (step_stopped _ _ _ _ _ _ Hinv Hstep) as Hflag.
  split; [|split; [|split; [|]]].
  - unfold invoke. rewrite Hb. discriminate.
  - unfold invoke. rewrite Hb. simpl. intros st1 H1.
    injection H1 as <-. assumption.
  - intro Ht. rewrite Hflag, Ht. reflexivity.
  - intro Hfalse. rewrite Hflag, Hfalse. simpl.
    destruct a as [|e]; simpl.
    + split; [discriminate|].
      intros [(sig & H)|[(ec & H & _)|[(ec & n & H & _)|(ec & c & H & _)]]];
        discriminate.
    + destruct e as [ec|ec node|ec cnt|ec now|ec|sig]; simpl;
        rewrite ?orb_true_iff, ?is_error_true, ?Z.leb_le.
      * split.
        -- intro H. right. left. exists ec. auto.
        -- intros [(sig & H)|[(e & H & He)|[(e & n & H & _)|(e & c & H & _)]]];
             try discriminate. injection H as <-. assumption.
      * split.
        -- intro H. right. right. left. exists ec, node. auto.
        -- intros [(sig & H)|[(e & H & _)|[(e & n & H & He)|(e & c & H & _)]]];
             try discriminate. injection H as <- <-. assumption.
      * split.
        -- intro H. right. right. right. exists ec, cnt. split; [reflexivity|].
           destruct H; [left; assumption | right; lia].
        -- intros [(sig & H)|[(e & H & _)|[(e & n & H & _)|(e & c & H & He)]]];
             try discriminate. injection H as <- <-.
           destruct He; [left; assumption | right; lia].
      * split; [discriminate|].
        intros [(sig & H)|[(e & H & _)|[(e & n & H & _)|(e & c & H & _)]]];
          discriminate.
      * split; [discriminate|].
        intros [(sig & H)|[(e & H & _)|[(e & n & H & _)|(e & c & H & _)]]];
          discriminate.
      * split; [|reflexivity]. intros _. left. exists sig. reflexivity.
Qed.


(** ** Start failure *)

Lemma invoke_split (a0 : config) (s1 s2 : list action) (a : action)
    (st : state) :
  invoke a0 (s1 ++ a :: s2) = Some st ->
  exists st1 st1',
    invoke a0 s1 = Some st1 /\ step a st1 = Some st1'
    /\ exec s2 st1' = Some st.
Proof.
  unfold invoke. destruct (invoke_begin a0) as [st0|]; [|discriminate].
  rewrite exec_app. destruct (exec s1 st0) as [st1|]; [|discriminate].
  simpl. destruct (step a st1) as [st1'|] eqn:Hs; [|discriminate].
  intro H. exists st1, st1'. repeat split; assumption.
Qed.

(** C2, as the code has it.  In every run in which the start callback is
    invoked with an error: the callback sets the Stop Flag at once and
    itself registers nothing with the session; the flag is true from then
    on; the subscription of line 186 is made whatever start reported, so
    that the subscriptions made are one (once line 186 is passed) plus one
    per channel delivered without error; and when the loop next tests the
    flag it leaves, issues no further poll and calls [stop]. *)
Theorem start_failure_stops :
  forall (a0 : config) (s1 s2 : list action) (ec : error_code) (st : state),
    invoke a0 (s1 ++ env (start_done ec) :: s2) = Some st ->
    ec <> 0 ->
    (exists st1 st1',
        invoke a0 s1 = Some st1
        /\ deliver (start_done ec) st1 = Some st1'
        /\ stopped st1' = true
        /\ channel_subscribers (prot st1') = channel_subscribers (prot st1)
        /\ calls (prot st1') = calls (prot st1))
    /\ stopped st = true
    /\ subscriptions (calls (prot st))
       = ((if subscribed (where_ st) then 1 else 0)
          + List.length
              (channels_delivered (s1 ++ env (start_done ec) :: s2)))%nat
    /\ (where_ st = at_poll_test ->
        exists st2 st3,
          main_step st = Some st2 /\ where_ st2 = at_stop
          /\ calls (prot st2) = calls (prot st)
          /\ main_step st2 = Some st3
          /\ calls (prot st3) = calls (prot st) ++ [call_stop]).
Proof.
  intros a0 s1 s2 ec st Hrun Hec.
  destruct (invoke_split _ _ _ _ _ Hrun) as (st1 & st1' & H1 & Hstep & H2).
  destruct (invoke_run_inv _ _ _ H1) as (st0 & _ & _ & _ & _ & Hinv1).
  destruct (invoke_run_inv _ _ _ Hrun) as (st0' & _ & _ & _ & _ & Hinv).
  apply is_error_true in Hec.
  assert (Hst1' : stopped st1' = true).
  { rewrite (step_stopped _ _ _ _ _ _ Hinv1 Hstep). simpl.
    rewrite Hec. apply orb_true_r. }
  assert (Hst : stopped st = true).
  { apply (exec_stopped a0 (tx_local st0) s2
             (s1 ++ [env (start_done ec)]) st1' st);
      [eapply run_inv_step; eassumption | assumption | assumption]. }
  split; [|split; [assumption|split]].
  - exists st1, st1'. split; [assumption|]. split; [assumption|].
    split; [assumption|].
    simpl in Hstep. unfold deliver, fire_oldest in Hstep.
    destruct (start_handlers (prot st1)) as [|h hs] eqn:Hh; [discriminate|].
    pose proof (inv_start _ _ _ _ Hinv1) as Hf. rewrite Hh in Hf.
    inversion Hf as [|? ? <- _]; subst.
    injection Hstep as <-. unfold fire. simpl. unfold handle_start.
    rewrite Hec. case_log; split; reflexivity.
  - apply (inv_subscriptions _ _ _ _ Hinv).
  - intro Hw. unfold main_step, poll. rewrite Hw, Hst.
    eexists. eexists. split; [reflexivity|].
    simpl. repeat split; reflexivity.
Qed.


(** ** Return *)

(** One step of the thread in [invoke], with the flag true, brings the
    return one step closer. *)
Lemma main_step_closer (st : state) (n : nat) :
  stopped st = true ->
  steps_to_return (where_ st) = S n ->
  exists st',
    main_step st = Some st' /\ stopped st' = true
    /\ steps_to_return (where_ st') = n.
Proof.
  intros Hs Hn. unfold main_step, poll, work. rewrite Hs.
  destruct (where_ st); simpl in Hn; try discriminate;
    injection Hn as <-; eexists; split; try reflexivity;
    simpl; split; auto.
Qed.

(** With the flag true, the thread in [invoke] reaches its return in
    [steps_to_return] steps of its own. *)
Lemma main_progress (n : nat) :
  forall st : state,
    stopped st = true ->
    steps_to_return (where_ st) = n ->
    exists st',
      exec (repeat main n) st = Some st'
      /\ steps_to_return (where_ st') = O.
Proof.
  induction n as [|n IH]; intros st Hs Hn.
  - exists st. split; [reflexivity | assumption].
  - destruct (main_step_closer st n Hs Hn) as (st1 & H1 & Hs1 & Hn1).
    destruct (IH st1 Hs1 Hn1) as (st' & He & H0).
    exists st'. split; [|assumption].
    simpl. rewrite H1. assumption.
Qed.

Lemma steps_to_return_bound (c : control) : (steps_to_return c <= 9)%nat.
Proof. destruct c; simpl; lia. Qed.

Lemma steps_to_return_zero (c : control) :
  steps_to_return c = O -> exists r, c = returned r.
Proof. destruct c; simpl; try discriminate. intros _. now exists r. Qed.

(** A handler never moves the thread in [invoke] and never resets the
    flag. *)
Lemma invoke_callback_control (h : callback) (a : callback_args)
    (now : string) (st : state) :
  where_ (invoke_callback h a now st) = where_ st
  /\ (stopped st = true -> stopped (invoke_callback h a now st) = true).
Proof.
  destruct h, a; simpl; try (split; [reflexivity | tauto]);
    unfold handle_start, send_tx, check_connection_count, handle_send;
    repeat match goal with
           | |- context [if ?b then _ else _] => destruct b; simpl
           | |- context [match read_tx ?o ?s with _ => _ end] =>
               destruct (read_tx o s); simpl
           end;
    case_log; split; auto.
Qed.

Lemma fire_control (h : callback) (a : callback_args) (now : string)
    (st : state) :
  where_ (fire h a now st) = where_ st
  /\ (stopped st = true -> stopped (fire h a now st) = true).
Proof.
  destruct (invoke_callback_control h a now st) as [Hw Hs].
  unfold fire. destruct h; simpl; split; assumption.
Qed.

Lemma fire_all_control (hs : list callback) (a : callback_args)
    (now : string) :
  forall st : state,
    where_ (fire_all hs a now st) = where_ st
    /\ (stopped st = true -> stopped (fire_all hs a now st) = true).
Proof.
  unfold fire_all. induction hs as [|h hs IH]; intro st; simpl.
  - split; [reflexivity | tauto].
  - destruct (IH (fire h a now st)) as [Hw Hs].
    destruct (fire_control h a now st) as [Hw' Hs'].
    split; [now rewrite Hw | auto].
Qed.

Lemma fire_oldest_control (hs : list callback)
    (keep : list callback -> state -> state) (a : callback_args)
    (now : string) (st st' : state) :
  (forall l, where_ (keep l st) = where_ st
             /\ stopped (keep l st) = stopped st) ->
  fire_oldest hs keep a now st = Some st' ->
  where_ st' = where_ st /\ (stopped st = true -> stopped st' = true).
Proof.
  intros Hk. unfold fire_oldest. destruct hs as [|h rest]; [discriminate|].
  intro H. injection H as <-.
  destruct (fire_control h a now (keep rest st)) as [Hw Hs].
  destruct (Hk rest) as [Hkw Hks].
  split; [now rewrite Hw | intro Ht; apply Hs; now rewrite Hks].
Qed.

(** An event never moves the thread in [invoke] and never resets the
    flag. *)
Lemma deliver_control (e : event) (st st' : state) :
  deliver e st = Some st' ->
  where_ st' = where_ st /\ (stopped st = true -> stopped st' = true).
Proof.
  destruct e as [ec|ec node|ec cnt|ec now|ec|sig]; simpl;
    try (apply fire_oldest_control; intro l; split; reflexivity).
  - destruct (channel_subscribers (prot st)) as [|h hs]; [discriminate|].
    intro H. injection H as <-.
    apply (fire_all_control (h :: hs) (args_channel ec node) ""
             (keep_channel_subscribers [] st)).
  - destruct (existsb (Z.eqb sig) (handled_signals st)); [|discriminate].
    intro H. injection H as <-. unfold signal_handler. case_log.
    all: split; reflexivity.
Qed.

(** With the flag true, whatever the environment does in between, every
    step of the thread in [invoke] brings the return one step closer. *)
Lemma exec_towards_return (s : list action) :
  forall st st' : state,
    exec s st = Some st' ->
    stopped st = true ->
    (steps_to_return (where_ st') + main_steps s
     = steps_to_return (where_ st))%nat
    /\ stopped st' = true.
Proof.
  induction s as [|a s IH]; intros st st' He Hs; simpl in He.
  - injection He as <-. simpl. split; [lia | assumption].
  - destruct (step a st) as [st1|] eqn:Hstep; [|discriminate].
    destruct a as [|e]; simpl in Hstep.
    + destruct (steps_to_return (where_ st)) as [|n] eqn:En.
      * destruct (steps_to_return_zero _ En) as (r & Hr).
        unfold main_step in Hstep. rewrite Hr in Hstep. discriminate.
      * destruct (main_step_closer st n Hs En) as (st2 & H2 & Hs2 & Hn2).
        rewrite H2 in Hstep. injection Hstep as <-.
        destruct (IH st2 st' He Hs2) as [Hc Hs'].
        split; [simpl; lia | assumption].
    + destruct (deliver_control e st st1 Hstep) as [Hw Hmono].
      destruct (IH st1 st' He (Hmono Hs)) as [Hc Hs'].
      split; [simpl; rewrite <- Hw; assumption | assumption].
Qed.

(** C7.  In every run of [invoke], whatever made the Stop Flag true: a
    returned invocation has returned [okay] after calling [stop]; from
    any state of the run in which the flag is true, the thread in [invoke]
    reaches, in at most nine steps of its own, the return of [okay], with
    [stop] called and every handler passed to [stop] being the lambda that
    ignores its result; and whatever events the environment delivers
    between those steps, the run ends in the return of [okay] after the
    call of [stop]. *)
Theorem invoke_returns_okay :
  forall (a0 : config) (s : list action) (st : state),
    invoke a0 s = Some st ->
    (forall r, where_ st = returned r ->
               r = okay /\ In call_stop (calls (prot st)))
    /\ (stopped st = true ->
        exists n st',
          (n <= 9)%nat
          /\ invoke a0 (s ++ repeat main n) = Some st'
          /\ where_ st' = returned okay
          /\ In call_stop (calls (prot st'))
          /\ Forall (eq cb_ignore_stop) (stop_handlers (prot st'))
          /\ (forall ec,
                invoke_callback cb_ignore_stop (args_error ec) "" st' = st'))
    /\ (stopped st = true ->
        forall s' st',
          invoke a0 (s ++ s') = Some st' ->
          main_steps s' = steps_to_return (where_ st) ->
          where_ st' = returned okay /\ In call_stop (calls (prot st'))).
Proof.
  intros a0 s st Hrun.
  destruct (invoke_run_inv _ _ _ Hrun) as (st0 & Hb & _ & _ & He & Hinv).
  split; [apply (inv_returned _ _ _ _ Hinv)|]. split.
  - intro Hs.
    destruct (main_progress _ st Hs eq_refl) as (st' & Hex & H0).
    set (n := steps_to_return (where_ st)) in *.
    assert (Hrun' : invoke a0 (s ++ repeat main n) = Some st').
    { unfold invoke. rewrite Hb, exec_app, He. assumption. }
    destruct (invoke_run_inv _ _ _ Hrun') as (st0' & _ & _ & _ & _ & Hinv').
    destruct (steps_to_return_zero _ H0) as (r & Hr).
    destruct (inv_returned _ _ _ _ Hinv' r Hr) as (-> & Hin).
    exists n, st'. split; [apply steps_to_return_bound|].
    split; [assumption|]. split; [assumption|]. split; [assumption|].
    split; [apply (inv_stop _ _ _ _ Hinv')|reflexivity].
  - intros Hs s' st' Hrun' Hn.
    destruct (invoke_run_inv _ _ _ Hrun') as (st0' & _ & _ & _ & _ & Hinv').
    assert (He' : exec s' st = Some st').
    { unfold invoke in Hrun'. rewrite Hb, exec_app, He in Hrun'.
      assumption. }
    destruct (exec_towards_return s' st st' He' Hs) as [Hc _].
    assert (H0 : steps_to_return (where_ st') = O) by lia.
    destruct (steps_to_return_zero _ H0) as (r & Hr).
    destruct (inv_returned _ _ _ _ Hinv' r Hr) as (-> & Hin).
    split; assumption.
Qed.


(** ** Setup *)

(** The first three steps of [invoke] on a non-empty collection of
    transactions. *)
Lemma invoke_setup (a0 : config) (tx : transaction_type)
    (rest : list transaction_type) :
  transactions_argument a0 = tx :: rest ->
  let cap := (nodes_option a0 * 6) mod 2 ^ 64 in
  exists st2 st3,
    invoke a0 [main; main] = Some st2
    /\ where_ st2 = at_start
    /\ max_outbound (prot st2) = Some cap
    /\ calls (prot st2) = [call_set_max_outbound cap]
    /\ invoke a0 [main; main; main] = Some st3
    /\ tx_local st3 = tx
    /\ max_outbound (prot st3) = Some cap
    /\ calls (prot st3) = [call_set_max_outbound cap; call_start]
    /\ start_handlers (prot st3) = [cb_handle_start]
    /\ channel_subscribers (prot st3) = [].
Proof.
  intros Htx cap. unfold invoke, invoke_begin. rewrite Htx. simpl.
  eexists. eexists. repeat split.
Qed.

(** C5, as the code has it.  [invoke] checks nothing before it starts the
    session: the first transaction is taken unconditionally, which is
    defined exactly when the transactions argument is not empty; given one
    transaction, that transaction is the one of the run and [start] is
    called, whatever the target node count is, zero included. *)
Theorem invoke_takes_front_unchecked :
  forall a0 : config,
    (invoke_begin a0 = None <-> transactions_argument a0 = [])
    /\ (forall tx rest,
          transactions_argument a0 = tx :: rest ->
          exists st,
            invoke a0 [main; main; main] = Some st
            /\ tx_local st = tx
            /\ In call_start (calls (prot st))
            /\ start_handlers (prot st) = [cb_handle_start]).
Proof.
  intro a0. split.
  - unfold invoke_begin.
    destruct (transactions_argument a0) as [|tx rest]; simpl.
    + split; reflexivity.
    + split; discriminate.
  - intros tx rest Htx.
    destruct (invoke_setup a0 tx rest Htx)
      as (_ & st3 & _ & _ & _ & _ & H3 & Ht & _ & Hc & Hh & _).
    exists st3. split; [assumption|]. split; [assumption|].
    split; [|assumption]. rewrite Hc. simpl. auto.
Qed.

(** C6, as the code has it.  For every target node count [T], the cap
    given to the session before [start] is [T * 6] reduced modulo [2^64],
    the product in [size_t]; it is [T * 6] itself whenever that product
    fits, that is for [0 <= T * 6 < 2^64]. *)
Theorem max_outbound_is_six_times_target :
  forall (a0 : config) (tx : transaction_type) (rest : list transaction_type),
    transactions_argument a0 = tx :: rest ->
    exists st,
      invoke a0 [main; main] = Some st
      /\ where_ st = at_start
      /\ calls (prot st)
         = [call_set_max_outbound ((nodes_option a0 * 6) mod 2 ^ 64)]
      /\ max_outbound (prot st) = Some ((nodes_option a0 * 6) mod 2 ^ 64)
      /\ (0 <= nodes_option a0 * 6 < 2 ^ 64 ->
          max_outbound (prot st) = Some (nodes_option a0 * 6)).
Proof.
  intros a0 tx rest Htx.
  destruct (invoke_setup a0 tx rest Htx)
    as (st2 & _ & H2 & Hw & Hm & Hc & _).
  exists st2. split; [assumption|]. split; [assumption|].
  split; [assumption|]. split; [assumption|].
  intro Hfit. rewrite Hm. f_equal. now apply Z.mod_small.
Qed.

(** * Further properties of the runs *)

(** Induction over the runs of an invocation. *)
Lemma run_ind (a0 : config) (P : list action -> state -> Prop) :
  (forall st0, invoke_begin a0 = Some st0 -> P [] st0) ->
  (forall s st a st',
      invoke a0 s = Some st -> P s st -> step a st = Some st' ->
      P (s ++ [a]) st') ->
  forall s st, invoke a0 s = Some st -> P s st.
Proof.
  intros H0 Hstep s.
  induction s as [|a s IH] using rev_ind; intros st Hrun.
  - apply H0. unfold invoke in Hrun.
    destruct (invoke_begin a0); [|discriminate]. simpl in Hrun.
    now injection Hrun as <-.
  - destruct (invoke_snoc _ _ _ _ Hrun) as (st1 & H1 & Hs).
    eapply Hstep; eauto.
Qed.

(** What neither a handler, nor its destruction, nor the session's
    bookkeeping changes, no event changes. *)
Lemma deliver_frame {A : Type} (F : state -> A) :
  (forall h a now st, F (fire h a now st) = F st) ->
  (forall hs st, F (keep_start_handlers hs st) = F st) ->
  (forall hs st, F (keep_channel_subscribers hs st) = F st) ->
  (forall hs st, F (keep_count_handlers hs st) = F st) ->
  (forall hs st, F (keep_send_handlers hs st) = F st) ->
  (forall hs st, F (keep_stop_handlers hs st) = F st) ->
  (forall sig st, F (signal_handler sig st) = F st) ->
  forall e st st', deliver e st = Some st' -> F st' = F st.
Proof.
  intros Hcb K1 K2 K3 K4 K5 Hsig e st st'.
  assert (Hall : forall hs a now st1, F (fire_all hs a now st1) = F st1).
  { unfold fire_all. induction hs as [|h hs IH]; intros a now st1; simpl.
    - reflexivity.
    - now rewrite IH, Hcb. }
  destruct e as [ec|ec node|ec cnt|ec now|ec|sig]; simpl; unfold fire_oldest.
  - destruct (start_handlers (prot st)); [discriminate|].
    intro H. injection H as <-. now rewrite Hcb, K1.
  - destruct (channel_subscribers (prot st)) as [|h hs]; [discriminate|].
    intro H. injection H as <-.
    change (F (fire_all (h :: hs) (args_channel ec node) ""
                 (keep_channel_subscribers [] st)) = F st).
    now rewrite Hall, K2.
  - destruct (count_handlers (prot st)); [discriminate|].
    intro H. injection H as <-. now rewrite Hcb, K3.
  - destruct (send_handlers (prot st)); [discriminate|].
    intro H. injection H as <-. now rewrite Hcb, K4.
  - destruct (stop_handlers (prot st)); [discriminate|].
    intro H. injection H as <-. now rewrite Hcb, K5.
  - destruct (existsb (Z.eqb sig) (handled_signals st)); [|discriminate].
    intro H. injection H as <-. apply Hsig.
Qed.

Ltac handler_cases :=
  match goal with
  | |- forall (h : callback) (a : callback_args), _ =>
      let h := fresh "h" in
      let a := fresh "a" in
      intros h a ? ?; unfold fire; destruct h, a; simpl; try reflexivity;
      unfold handle_start, send_tx, check_connection_count, handle_send;
      repeat match goal with
             | |- context [if ?b then _ else _] => destruct b; simpl
             | |- context [match read_tx ?o ?s with _ => _ end] =>
                 destruct (read_tx o s); simpl
             end;
      case_log;
      try reflexivity
  end.

Ltac signal_case :=
  intros; unfold signal_handler; case_log; reflexivity.

(** ** The lifecycle of the session *)

Lemma lifecycle_app (l1 l2 : list api_call) :
  lifecycle (l1 ++ l2) = lifecycle l1 ++ lifecycle l2.
Proof.
  induction l1 as [|c l1 IH]; simpl; [reflexivity|].
  destruct c; simpl; now rewrite ?IH.
Qed.

Lemma deliver_lifecycle (e : event) (st st' : state) :
  deliver e st = Some st' ->
  (lifecycle (calls (prot st')), max_outbound (prot st'))
  = (lifecycle (calls (prot st)), max_outbound (prot st)).
Proof.
  apply (deliver_frame
           (fun st => (lifecycle (calls (prot st)), max_outbound (prot st))));
    try reflexivity; try signal_case.
  handler_cases.
  all: rewrite !lifecycle_app; simpl; now rewrite !app_nil_r.
Qed.

Lemma in_lifecycle (l : list api_call) :
  In call_stop l -> In call_stop (lifecycle l).
Proof.
  induction l as [|c l IH]; simpl; [tauto|].
  intros [->|H]; [left; reflexivity|].
  destruct c; simpl; auto.
Qed.

(** The lifecycle calls made, the cap and the flag at the end of
    [invoke], after every run. *)
Lemma lifecycle_inv (a0 : config) (s : list action) (st : state) :
  invoke a0 s = Some st ->
  lifecycle (calls (prot st))
  = firstn (stage (where_ st))
      [call_set_max_outbound ((nodes_option a0 * 6) mod 2 ^ 64);
       call_start; call_stop]
  /\ max_outbound (prot st)
     = match stage (where_ st) with
       | O => None
       | S _ => Some ((nodes_option a0 * 6) mod 2 ^ 64)
       end
  /\ ((steps_to_return (where_ st) <= 1)%nat -> stopped st = true).
Proof.
  revert s st. apply run_ind.
  - intros st0 Hb. unfold invoke_begin in Hb.
    destruct (front (transactions_argument a0)); [|discriminate].
    injection Hb as <-. simpl.
    split; [reflexivity|]. split; [reflexivity|]. intro H. lia.
  - intros s st a st' Hrun (Hl & Hm & Hs) Hstep.
    destruct (invoke_run_inv _ _ _ Hrun) as (st0 & _ & _ & _ & _ & Hinv).
    pose proof (inv_args _ _ _ _ Hinv) as Ha.
    destruct a as [|e]; simpl in Hstep.
    + destruct st as [b c sg o p a t u bd]. simpl in *. subst a.
      unfold main_step, poll, work in Hstep. simpl in Hstep.
      destruct c; try discriminate; try destruct b eqn:Eb;
        injection Hstep as <-; simpl in *;
        rewrite ?lifecycle_app, ?Hl; simpl;
        (split; [reflexivity|]; split; [assumption || reflexivity|]);
        intro; try reflexivity; try lia; auto.
    + destruct (deliver_control e st st' Hstep) as [Hw Hmono].
      pose proof (deliver_lifecycle e st st' Hstep) as Hf.
      injection Hf as Hf1 Hf2. rewrite Hw, Hf1, Hf2.
      split; [assumption|]. split; [assumption|]. auto.
Qed.

(** X5.  In every run [invoke] sets the outbound cap, starts the session
    and stops it, each once and in that order, and nothing else does: the
    lifecycle calls of the history are the first [stage] calls of that
    sequence; the cap of the session is the one set at line 182 from then
    on; and [stop] is in the history only when the Stop Flag is true. *)
Theorem session_lifecycle :
  forall (a0 : config) (s : list action) (st : state),
    invoke a0 s = Some st ->
    lifecycle (calls (prot st))
    = firstn (stage (where_ st))
        [call_set_max_outbound ((nodes_option a0 * 6) mod 2 ^ 64);
         call_start; call_stop]
    /\ max_outbound (prot st)
       = match stage (where_ st) with
         | O => None
         | S _ => Some ((nodes_option a0 * 6) mod 2 ^ 64)
         end
    /\ (In call_stop (calls (prot st)) -> stopped st = true).
Proof.
  intros a0 s st Hrun.
  destruct (lifecycle_inv a0 s st Hrun) as (Hl & Hm & Hs).
  split; [assumption|]. split; [assumption|].
  intro Hin. apply Hs. apply in_lifecycle in Hin. rewrite Hl in Hin.
  destruct (where_ st); simpl in *;
    repeat (destruct Hin as [Hin|Hin]; try discriminate); try tauto; lia.
Qed.

(** ** Signals *)

Lemma signals_inv (a0 : config) (s : list action) (st : state) :
  invoke a0 s = Some st ->
  handled_signals st = installed_signals (where_ st).
Proof.
  revert s st. apply run_ind.
  - intros st0 Hb. unfold invoke_begin in Hb.
    destruct (front (transactions_argument a0)); [|discriminate].
    injection Hb as <-. reflexivity.
  - intros s st a st' Hrun Hs Hstep.
    destruct a as [|e]; simpl in Hstep.
    + destruct st as [b c sg o p a t u bd]. simpl in *.
      unfold main_step, poll, work in Hstep. simpl in Hstep.
      destruct c; try discriminate; try destruct b;
        injection Hstep as <-; simpl in *; subst; reflexivity.
    + destruct (deliver_control e st st' Hstep) as [Hw _].
      rewrite Hw, <- Hs.
      refine (deliver_frame handled_signals _ _ _ _ _ _ _ e st st' Hstep);
        try reflexivity; try signal_case.
      handler_cases.
Qed.

(** X6.  In every run the signal handlers installed are those of the
    lines 190-192 executed so far; once the three are installed, each of
    [SIGABRT], [SIGTERM] and [SIGINT] is handled the same way, setting
    the Stop Flag and touching neither the session nor the thread in
    [invoke]; no other signal is ever handled by the program. *)
Theorem three_signals_handled :
  forall (a0 : config) (s : list action) (st : state),
    invoke a0 s = Some st ->
    handled_signals st = installed_signals (where_ st)
    /\ (signals_installed (where_ st) = true ->
        forall sig,
          sig = SIGABRT \/ sig = SIGTERM \/ sig = SIGINT ->
          exists st',
            deliver (signal_raised sig) st = Some st'
            /\ stopped st' = true
            /\ prot st' = prot st
            /\ where_ st' = where_ st)
    /\ (forall sig,
          sig <> SIGABRT -> sig <> SIGTERM -> sig <> SIGINT ->
          deliver (signal_raised sig) st = None).
Proof.
  intros a0 s st Hrun.
  pose proof (signals_inv a0 s st Hrun) as Hh.
  split; [assumption|]. split.
  - intros Hi sig Hsig. simpl. rewrite Hh.
    assert (He : existsb (Z.eqb sig) (installed_signals (where_ st)) = true).
    { destruct (where_ st); try discriminate;
        destruct Hsig as [->|[->| ->]]; reflexivity. }
    rewrite He. eexists. split; [reflexivity|].
    unfold signal_handler. case_log. all: repeat split.
  - intros sig H1 H2 H3. simpl. rewrite Hh.
    assert (He : existsb (Z.eqb sig) (installed_signals (where_ st)) = false).
    { apply Z.eqb_neq in H1, H2, H3.
      destruct (where_ st); simpl; rewrite ?H1, ?H2, ?H3; reflexivity. }
    now rewrite He.
Qed.


(** ** The flag and the handlers *)

(** X2.  No handler reads the Stop Flag: called in a state in which the
    flag is already true, every completion handler and the signal handler
    do exactly what they do otherwise (the same sends, subscriptions and
    messages); the flag only gates the loop of [invoke]. *)
Theorem handlers_ignore_stop_flag :
  forall (h : callback) (a : callback_args) (now : string) (sig : Z)
         (st : state),
    invoke_callback h a now (set_stopped st)
    = set_stopped (invoke_callback h a now st)
    /\ signal_handler sig (set_stopped st)
       = set_stopped (signal_handler sig st).
Proof.
  intros h a now sig st. split.
  - destruct h, a; simpl; try reflexivity;
      unfold handle_start, send_tx, check_connection_count, handle_send,
        read_tx; simpl;
      repeat match goal with
             | |- context [if ?b then _ else _] => destruct b; simpl
             | |- context [match nth_error ?l ?o with _ => _ end] =>
                 destruct (nth_error l o) as [[?|]|]; simpl
             end;
      unfold log; change (io (set_stopped st)) with (io st);
      case_log; reflexivity.
  - unfold signal_handler, log. change (io (set_stopped st)) with (io st).
    case_log. all: reflexivity.
Qed.

(** ** Failure of a channel *)

Lemma invoke_step (a0 : config) (s : list action) (a : action)
    (st st' : state) :
  invoke a0 s = Some st -> step a st = Some st' ->
  invoke a0 (s ++ [a]) = Some st'.
Proof.
  unfold invoke. destruct (invoke_begin a0) as [st0|]; [|discriminate].
  intros He Hs. rewrite exec_app, He. simpl. now rewrite Hs.
Qed.

(** After a channel event with an error no subscription is left. *)
Lemma error_inv (a0 : config) (s : list action) (st : state) :
  invoke a0 s = Some st ->
  channel_error s = true ->
  channel_subscribers (prot st) = [].
Proof.
  intros Hrun Herr.
  destruct (invoke_run_inv _ _ _ Hrun) as (st0 & _ & _ & _ & _ & Hinv).
  rewrite (inv_subscribers _ _ _ _ Hinv), Herr.
  now rewrite andb_false_r.
Qed.

Lemma no_channel_after_error (a0 : config) (s2 : list action) :
  forall (s : list action) (st st' : state),
    invoke a0 s = Some st ->
    channel_error s = true ->
    exec s2 st = Some st' ->
    no_channel_event s2 = true.
Proof.
  induction s2 as [|a s2 IH]; intros s st st' Hrun Herr He; simpl in He.
  - reflexivity.
  - destruct (step a st) as [st1|] eqn:Hstep; [|discriminate].
    assert (Hnext : no_channel_event s2 = true).
    { apply (IH (s ++ [a]) st1 st').
      - now apply invoke_step with (st := st).
      - rewrite channel_error_app, Herr. reflexivity.
      - assumption. }
    destruct a as [|e]; [assumption|].
    destruct e as [ec|ec node|ec cnt|ec now|ec|sig]; try assumption.
    pose proof (error_inv a0 s st Hrun Herr) as Hsubs.
    simpl in Hstep. rewrite Hsubs in Hstep. discriminate.
Qed.

(** X1.  In every run, a channel event that carries an error ends the
    broadcast: from then on the Stop Flag is true and no channel
    subscription is armed, no further channel event is delivered in the
    rest of the run, and the send attempts of the whole run are those
    made for the channels delivered before the failure (the first with
    the transaction of the run, those after it with what is read from the
    destroyed object of the first handler). *)
Theorem channel_failure_ends_broadcast :
  forall (a0 : config) (s1 s2 : list action) (ec : error_code)
         (node : channel_ptr) (st : state),
    invoke a0 (s1 ++ env (channel_ready ec node) :: s2) = Some st ->
    ec <> 0 ->
    stopped st = true
    /\ channel_subscribers (prot st) = []
    /\ no_channel_event s2 = true
    /\ exists tx,
         front (transactions_argument a0) = Some tx
         /\ sends (calls (prot st)) = sent_to tx (channels_delivered s1).
Proof.
  intros a0 s1 s2 ec node st Hrun Hec.
  destruct (invoke_split _ _ _ _ _ Hrun) as (st1 & st1' & H1 & Hstep & H2).
  destruct (invoke_run_inv _ _ _ H1) as (st0 & _ & _ & _ & _ & Hinv1).
  destruct (invoke_run_inv _ _ _ Hrun) as (st0' & _ & Hf & _ & _ & Hinv).
  apply is_error_true in Hec.
  pose proof (invoke_step _ _ _ _ _ H1 Hstep) as H1'.
  assert (Herr1 : channel_error (s1 ++ [env (channel_ready ec node)]) = true).
  { rewrite channel_error_app. simpl. rewrite Hec. apply orb_true_r. }
  assert (Hno : no_channel_event s2 = true).
  { exact (no_channel_after_error a0 s2 _ st1' st H1' Herr1 H2). }
  assert (Herr : channel_error (s1 ++ env (channel_ready ec node) :: s2)
                 = true).
  { rewrite channel_error_app. simpl. rewrite Hec. simpl.
    apply orb_true_r. }
  split.
  - apply (exec_stopped a0 (tx_local st0) s2
             (s1 ++ [env (channel_ready ec node)]) st1' st);
      [eapply run_inv_step; eassumption | assumption |].
    rewrite (step_stopped _ _ _ _ _ _ Hinv1 Hstep). simpl.
    rewrite Hec. apply orb_true_r.
  - split; [apply (error_inv a0 _ st Hrun Herr)|].
    split; [assumption|].
    exists (tx_local st0'). split; [assumption|].
    rewrite (inv_sends _ _ _ _ Hinv), channels_delivered_app. simpl.
    rewrite Hec, (no_channel_event_delivered s2 Hno), app_nil_r.
    reflexivity.
Qed.

(** ** The loggers and streams of a run *)

Lemma empty_append_r (a b : string) :
  empty b = false -> empty (a ++ b) = false.
Proof. destruct a; simpl; auto. Qed.

Lemma io_inv_begin (a0 : config) (st0 : state) :
  invoke_begin a0 = Some st0 -> io_inv a0 (tx_local st0) [] st0.
Proof.
  unfold invoke_begin.
  destruct (front (transactions_argument a0)) as [tx|]; [|discriminate].
  intro H. injection H as <-.
  constructor; simpl; try (intro H; now destruct H); auto.
Qed.

Lemma control_eq_bind (c : control) :
  c = at_bind_logging \/ c <> at_bind_logging.
Proof. destruct c; [left; reflexivity | right; discriminate ..]. Qed.

Lemma main_step_io (st st' : state) :
  main_step st = Some st' ->
  where_ st <> at_bind_logging ->
  io st' = io st /\ undefined st' = undefined st
  /\ where_ st' <> at_bind_logging.
Proof.
  unfold main_step, poll, work.
  destruct (where_ st); try destruct (stopped st); intros H Hw;
    try discriminate; try (now elim Hw);
    injection H as <-; simpl; repeat split; try reflexivity; discriminate.
Qed.

Lemma uses_destroyed_main (a0 : config) (s : list action) :
  uses_destroyed a0 (s ++ [main]) = uses_destroyed a0 s.
Proof.
  unfold uses_destroyed.
  rewrite flat_map_app, channels_delivered_app. simpl.
  now rewrite !app_nil_r.
Qed.

Ltac snoc_norm :=
  rewrite ?flat_map_app, ?filter_app, ?map_app; simpl;
  rewrite ?app_nil_r.

Lemma io_inv_main (a0 : config) (tx : transaction_type) (s : list action)
    (st st' : state) :
  io_inv a0 tx s st -> main_step st = Some st' ->
  io_inv a0 tx (s ++ [main]) st'.
Proof.
  intros [Hb Hdo Hio Hwo Heo Hfo Hds Hes Hdf Hu] Hm.
  destruct (control_eq_bind (where_ st)) as [Hw|Hw].
  - (* line 169 *)
    destruct (Hb Hw) as [-> ->].
    unfold main_step in Hm. simpl in Hm. injection Hm as <-.
    clear Hb Hdo Hio Hwo Heo Hfo Hds Hes Hdf Hu Hw.
    unfold bind_logging.
    destruct (empty (logging_debug_setting a0)) eqn:Ed,
             (empty (logging_error_setting a0)) eqn:Ee;
      constructor; simpl; unfold sink; rewrite ?Ed, ?Ee;
      try discriminate; auto.
  - destruct (main_step_io st st' Hm Hw) as (Hi & Hu' & Hw').
    constructor; rewrite ?Hi, ?Hu', ?uses_destroyed_main; snoc_norm; auto.
    intro H. now elim Hw'.
Qed.

Local Arguments output_to_file : simpl never.
Local Arguments output_cerr_and_file : simpl never.
Local Arguments contract_line : simpl never.

Ltac norm_io Ed Ee :=
  constructor; simpl; unfold sink, unrouted, uses_destroyed;
  rewrite ?Ed, ?Ee;
  rewrite ?flat_map_app, ?filter_app, ?map_app, ?existsb_app,
    ?channels_delivered_app, ?length_app;
  simpl; unfold unrouted; simpl; rewrite ?Ed, ?Ee; simpl;
  rewrite ?app_nil_r, ?orb_false_r, ?Nat.add_0_r.

Ltac close_io :=
  rewrite ?app_nil_r, ?orb_false_r;
  try reflexivity; try discriminate; try assumption;
  try (intros; discriminate);
  try (let H := fresh in intro H; exfalso; auto; fail);
  try (rewrite <- ?orb_assoc; simpl; rewrite ?orb_true_r; reflexivity);
  try (rewrite <- !orb_assoc; f_equal; apply orb_comm).

Lemma io_inv_env (a0 : config) (tx : transaction_type) (s : list action)
    (e : event) (st st' : state) :
  run_inv a0 tx s st -> io_inv a0 tx s st -> deliver e st = Some st' ->
  io_inv a0 tx (s ++ [env e]) st'.
Proof.
  intros [Ha Ht Hst Hc Hse Hsp Hbf Hbd Hsu Hsd Hsub Hr]
         [Hb Hdo Hio Hwo Heo Hfo Hds Hes Hdf Hu] Hd.
  destruct (control_eq_bind (where_ st)) as [Hw|Hw].
  { destruct (Hb Hw) as [_ ->]. destruct e; discriminate. }
  specialize (Hdo Hw). specialize (Hio Hw). specialize (Hwo Hw).
  specialize (Heo Hw). specialize (Hfo Hw). clear Hb.
  destruct st as [b c sg o p a t u bd].
  destruct p as [mo sh cs ch sdh sph cl].
  destruct o as [dout iout wout eout fout ds es ce co df].
  simpl in *. subst a t dout iout wout eout fout ds es df u.
  unfold sink in *.
  destruct e as [ec|ec node|ec cnt|ec now|ec|sig]; simpl in Hd.
  - (* start_done *)
    destruct sh as [|h sh]; [discriminate|].
    inversion Hst as [|? ? <- Hst']; subst.
    injection Hd as <-.
    unfold fire, handle_start, log, log_to; simpl.
    destruct (is_error ec) eqn:Eec;
      destruct (empty (logging_debug_setting a0)) eqn:Ed,
               (empty (logging_error_setting a0)) eqn:Ee;
      simpl; norm_io Ed Ee; rewrite ?Eec; simpl; close_io.
  - (* channel_ready *)
    destruct (subscribed c) eqn:Hc'; simpl in Hsu;
      [|subst cs; discriminate].
    destruct (channel_error s) eqn:Herr; simpl in Hsu;
      [subst cs; discriminate|].
    specialize (Hbd eq_refl). subst cs bd. clear Hbf.
    unfold armed in Hd.
    destruct (no_channel_event s) eqn:Hne.
    + pose proof (no_channel_event_delivered s Hne) as Hcd.
      injection Hd as <-.
      unfold fire_all, fire, send_tx, read_tx, log, log_to; simpl.
      destruct (is_error ec) eqn:Eec;
        destruct (empty (logging_debug_setting a0)) eqn:Ed,
                 (empty (logging_error_setting a0)) eqn:Ee;
        simpl; norm_io Ed Ee; rewrite ?Eec, ?Hcd; simpl; close_io.
    + pose proof (delivered_some s Herr Hne) as Hcd.
      injection Hd as <-.
      unfold fire_all, fire, send_tx, read_tx, log, log_to; simpl.
      destruct (channels_delivered s) as [|n0 l0] eqn:El;
        [now elim Hcd|].
      destruct (is_error ec) eqn:Eec;
        destruct (empty (logging_debug_setting a0)) eqn:Ed,
                 (empty (logging_error_setting a0)) eqn:Ee;
        simpl; norm_io Ed Ee; rewrite ?Eec, ?El; simpl;
        rewrite ?Nat.add_1_r, ?Nat.add_0_r; simpl; close_io.
  - (* count_fetched *)
    destruct ch as [|h ch]; [discriminate|].
    inversion Hc as [|? ? <- Hc'']; subst.
    injection Hd as <-.
    unfold fire, check_connection_count, log, log_to; simpl.
    destruct (is_error ec) eqn:Eec;
      destruct (empty (logging_debug_setting a0)) eqn:Ed,
               (empty (logging_error_setting a0)) eqn:Ee;
      simpl; rewrite ?empty_append_r by reflexivity; simpl;
      try destruct (nodes_option a0 <=? cnt); simpl;
      norm_io Ed Ee; rewrite ?Eec; simpl; close_io.
  - (* send_done *)
    destruct sdh as [|h sdh]; [discriminate|].
    inversion Hse as [|? ? <- Hse']; subst.
    injection Hd as <-.
    unfold fire, handle_send, log, log_to; simpl.
    destruct (is_error ec) eqn:Eec;
      destruct (empty (logging_debug_setting a0)) eqn:Ed,
               (empty (logging_error_setting a0)) eqn:Ee;
      simpl; norm_io Ed Ee; rewrite ?Eec; simpl; close_io.
  - (* stop_done *)
    destruct sph as [|h sph]; [discriminate|].
    inversion Hsp as [|? ? <- Hsp']; subst.
    injection Hd as <-.
    destruct (empty (logging_debug_setting a0)) eqn:Ed,
             (empty (logging_error_setting a0)) eqn:Ee;
      simpl; norm_io Ed Ee; close_io.
  - (* signal_raised *)
    destruct (existsb (Z.eqb sig) sg); [|discriminate].
    injection Hd as <-.
    unfold signal_handler, log, log_to; simpl.
    destruct (empty (logging_debug_setting a0)) eqn:Ed,
             (empty (logging_error_setting a0)) eqn:Ee;
      simpl; norm_io Ed Ee; close_io.
Qed.

Lemma invoke_io_inv (a0 : config) (s : list action) (st : state) :
  invoke a0 s = Some st ->
  exists tx,
    front (transactions_argument a0) = Some tx
    /\ run_inv a0 tx s st /\ io_inv a0 tx s st.
Proof.
  intro Hrun.
  destruct (invoke_run_inv _ _ _ Hrun) as (st0 & Hb & Hf & _ & _ & Hri).
  exists (tx_local st0). split; [assumption|]. split; [assumption|].
  revert s st Hrun Hri.
  refine (run_ind a0
            (fun s st => run_inv a0 (tx_local st0) s st ->
                         io_inv a0 (tx_local st0) s st) _ _).
  - intros st1 Hb1 _. rewrite Hb in Hb1. injection Hb1 as <-.
    now apply io_inv_begin.
  - intros s st a st' Hrun IH Hstep _.
    destruct (invoke_run_inv _ _ _ Hrun) as (st1 & Hb1 & _ & _ & _ & Hinv).
    rewrite Hb in Hb1. injection Hb1 as <-.
    destruct a as [|e]; simpl in Hstep.
    + apply io_inv_main with (st := st); auto.
    + apply io_inv_env with (st := st); auto.
Qed.

(** X11.  In every run, the messages of the levels whose log path is
    empty, and only those, are passed to the output function of the
    library, in the order of the events and with the empty domain. *)
Theorem unrouted_messages_reach_library :
  forall (a0 : config) (s : list action) (st : state),
    invoke a0 s = Some st ->
    default_out (io st)
    = map (fun m => (fst m, "", snd m))
          (filter (unrouted (logging_debug_setting a0)
                            (logging_error_setting a0))
                  (flat_map (logged (nodes_option a0)) s)).
Proof.
  intros a0 s st Hrun.
  destruct (invoke_io_inv a0 s st Hrun) as (tx & _ & _ & Hinv).
  apply (io_default_out _ _ _ _ Hinv).
Qed.

(** ** The destroyed streams *)

(** A message of a level bound to a file is a use of a destroyed
    stream. *)
Lemma routed_message_undefined (a0 : config) (s : list action) (st : state)
    (m : log_level * string) :
  invoke a0 s = Some st ->
  In m (flat_map (logged (nodes_option a0)) s) ->
  unrouted (logging_debug_setting a0) (logging_error_setting a0) m = false ->
  undefined st = true.
Proof.
  intros Hrun Hin Hm.
  destruct (invoke_io_inv a0 s st Hrun) as (tx & _ & _ & Hinv).
  rewrite (io_undefined _ _ _ _ Hinv). unfold uses_destroyed.
  apply orb_true_iff. left. apply existsb_exists.
  exists m. split; [assumption|]. now rewrite Hm.
Qed.

(** X7.  After [bind_logging], whatever the loggers and streams were
    before: with an error-log path the output function of the warnings is
    [output_to_file] on [error_file], with a debug-log path that of the
    debug and info levels is [output_to_file] on [debug_file]; the file has
    been truncated and the stream object bound by [std::ref] no longer
    exists, so that a message of such a level with a body is an insertion
    into a destroyed stream and reaches no file; a message with an empty
    body changes nothing. *)
Theorem bind_logging_binds_destroyed_streams :
  forall (debug_path error_path : string) (o : io_state)
         (level : log_level) (domain body : string),
    let o1 := bind_logging debug_path error_path o in
    (empty error_path = false -> level = warning ->
       out_of level o1 = bound_output_to_file error_file
       /\ error_stream o1 = mk_ofstream "" false
       /\ log_to level domain body o1
          = if empty body then Some o1 else None)
    /\ (empty debug_path = false -> level = debug \/ level = info ->
       out_of level o1 = bound_output_to_file debug_file
       /\ debug_stream o1 = mk_ofstream "" false
       /\ log_to level domain body o1
          = if empty body then Some o1 else None).
Proof.
  intros debug_path error_path o level domain body o1.
  destruct (bind_logging_installs debug_path error_path o)
    as (Hi1 & Hi2 & _ & _).
  destruct (bind_logging_destroys debug_path error_path o)
    as (Hd1 & Hd2 & _).
  fold o1 in Hi1, Hi2, Hd1, Hd2.
  split.
  - intros He ->. destruct (Hi2 He) as (Hw & _). specialize (Hd2 He).
    split; [exact Hw|]. split; [exact Hd2|].
    unfold log_to. simpl out_of. rewrite Hw. simpl stream_of.
    rewrite Hd2. simpl. reflexivity.
  - intros Hd Hl. destruct (Hi1 Hd) as (Hdb & Hin). specialize (Hd1 Hd).
    assert (Hout : out_of level o1 = bound_output_to_file debug_file)
      by (destruct Hl; subst level; assumption).
    split; [exact Hout|]. split; [exact Hd1|].
    unfold log_to. rewrite Hout. simpl stream_of.
    rewrite Hd1. simpl. reflexivity.
Qed.

(** X8.  In every run with an error-log path: after line 169 the output
    function of the warnings is [output_to_file] on the destroyed
    [error_file]; every failed completion (start, channel setup, count
    check, send) logs a warning, which is an insertion into that destroyed
    stream, so that a run with a failed completion is not defined; and in
    a run that is defined nothing has been written to the error file, whose
    stream object does not exist. *)
Theorem warning_uses_destroyed_error_file :
  forall (a0 : config) (s : list action) (st : state),
    invoke a0 s = Some st ->
    empty (logging_error_setting a0) = false ->
    (where_ st <> at_bind_logging ->
       warning_out (io st) = bound_output_to_file error_file)
    /\ (forall body,
          In (warning, body) (flat_map (logged (nodes_option a0)) s) ->
          undefined st = true)
    /\ (undefined st = false ->
          error_stream (io st) = mk_ofstream "" false).
Proof.
  intros a0 s st Hrun He.
  destruct (invoke_io_inv a0 s st Hrun) as (tx & _ & _ & Hinv).
  split; [|split].
  - intro Hw. rewrite (io_warning_out _ _ _ _ Hinv Hw).
    unfold sink. now rewrite He.
  - intros body Hin.
    apply (routed_message_undefined a0 s st (warning, body) Hrun Hin).
    unfold unrouted. simpl. assumption.
  - intros _. apply (io_error_stream _ _ _ _ Hinv).
Qed.

(** X9.  In every run with a debug-log path: after line 169 the output
    function of the debug and info levels is [output_to_file] on the
    destroyed [debug_file]; every message of those levels (a successful
    start, a count fetched, a signal caught) is an insertion into that
    destroyed stream, so that a run with such a message is not defined;
    and in a run that is defined nothing has been written to the debug
    file, whose stream object does not exist. *)
Theorem debug_message_uses_destroyed_debug_file :
  forall (a0 : config) (s : list action) (st : state),
    invoke a0 s = Some st ->
    empty (logging_debug_setting a0) = false ->
    (where_ st <> at_bind_logging ->
       debug_out (io st) = bound_output_to_file debug_file
       /\ info_out (io st) = bound_output_to_file debug_file)
    /\ (forall level body,
          level = debug \/ level = info ->
          In (level, body) (flat_map (logged (nodes_option a0)) s) ->
          undefined st = true)
    /\ (undefined st = false ->
          debug_stream (io st) = mk_ofstream "" false).
Proof.
  intros a0 s st Hrun Hd.
  destruct (invoke_io_inv a0 s st Hrun) as (tx & _ & _ & Hinv).
  split; [|split].
  - intro Hw. rewrite (io_debug_out _ _ _ _ Hinv Hw).
    rewrite (io_info_out _ _ _ _ Hinv Hw).
    unfold sink. rewrite Hd. split; reflexivity.
  - intros level body Hl Hin.
    apply (routed_message_undefined a0 s st (level, body) Hrun Hin).
    unfold unrouted. destruct Hl; subst level; simpl; assumption.
  - intros _. apply (io_debug_stream _ _ _ _ Hinv).
Qed.

(** ** The transaction of the handlers *)

Lemma sent_to_length (tx : transaction_type) (l : list channel_ptr) :
  List.length (sent_to tx l) = List.length l.
Proof. destruct l; simpl; [reflexivity|]. now rewrite length_map. Qed.

Lemma in_sent_to (tx t : transaction_type) (node : channel_ptr)
    (l : list channel_ptr) :
  In (node, Some t) (sent_to tx l) -> t = tx /\ hd_error l = Some node.
Proof.
  destruct l as [|n l]; simpl; [tauto|].
  intros [H|H].
  - injection H as -> ->. split; reflexivity.
  - apply in_map_iff in H. destruct H as (x & Hx & _). discriminate.
Qed.

(** A second channel delivered without error is a read of a destroyed
    transaction. *)
Lemma second_channel_undefined (a0 : config) (s : list action) (st : state) :
  invoke a0 s = Some st ->
  (2 <= List.length (channels_delivered s))%nat ->
  undefined st = true.
Proof.
  intros Hrun Hn.
  destruct (invoke_io_inv a0 s st Hrun) as (tx & _ & _ & Hinv).
  rewrite (io_undefined _ _ _ _ Hinv). unfold uses_destroyed.
  apply orb_true_iff. right. now apply Nat.leb_le.
Qed.

(** C1 on the code.  In every run of [invoke] whose channel events carry
    no error, one send is attempted per channel delivered, in the order of
    delivery, and [send_tx] re-subscribes once per channel, so that one
    subscription is armed; but only the first send carries the
    transaction of the run.  The handler of line 187 stores a copy of the
    transaction, the handler registered at line 122 refers to that copy,
    and the copy is destroyed with the first handler once it has been
    called: the copy no longer exists after the first channel, and from
    the second channel on [send_tx] reads a destroyed object, so that the
    run is not defined. *)
Theorem later_channels_read_destroyed_transaction :
  forall (a0 : config) (s : list action) (st : state),
    invoke a0 s = Some st ->
    channel_error s = false ->
    exists tx,
      front (transactions_argument a0) = Some tx
      /\ sends (calls (prot st)) = sent_to tx (channels_delivered s)
      /\ List.length (sends (calls (prot st)))
         = List.length (channels_delivered s)
      /\ subscriptions (calls (prot st))
         = ((if subscribed (where_ st) then 1 else 0)
            + List.length (channels_delivered s))%nat
      /\ (subscribed (where_ st) = true ->
          channel_subscribers (prot st) = [armed s]
          /\ bound_tx st = [if no_channel_event s then Some tx else None])
      /\ ((2 <= List.length (channels_delivered s))%nat ->
          undefined st = true).
Proof.
  intros a0 s st Hrun Hne.
  destruct (invoke_run_inv _ _ _ Hrun) as (st0 & _ & Hf & _ & _ & Hinv).
  exists (tx_local st0). split; [assumption|].
  pose proof (inv_sends _ _ _ _ Hinv) as Hs.
  split; [exact Hs|]. split; [rewrite Hs; apply sent_to_length|].
  split; [apply (inv_subscriptions _ _ _ _ Hinv)|]. split.
  - intro Hsub. split.
    + rewrite (inv_subscribers _ _ _ _ Hinv), Hsub, Hne. reflexivity.
    + apply (inv_bound _ _ _ _ Hinv Hsub).
  - apply (second_channel_undefined a0 s st Hrun).
Qed.

(** X10.  In every run, with or without errors, the send attempts are
    one per channel delivered without error, in that order; a send that
    carries a transaction carries the first transaction of the
    transactions argument and is the send over the first channel
    delivered; the sends over the later channels read the destroyed copy
    of the first handler, and a run with two channels delivered is not
    defined. *)
Theorem only_first_send_reads_the_transaction :
  forall (a0 : config) (s : list action) (st : state),
    invoke a0 s = Some st ->
    exists tx,
      front (transactions_argument a0) = Some tx
      /\ sends (calls (prot st)) = sent_to tx (channels_delivered s)
      /\ (forall node t,
            In (node, Some t) (sends (calls (prot st))) ->
            t = tx /\ hd_error (channels_delivered s) = Some node)
      /\ ((2 <= List.length (channels_delivered s))%nat ->
          undefined st = true).
Proof.
  intros a0 s st Hrun.
  destruct (invoke_run_inv _ _ _ Hrun) as (st0 & _ & Hf & _ & _ & Hinv).
  exists (tx_local st0). split; [assumption|].
  pose proof (inv_sends _ _ _ _ Hinv) as Hs.
  split; [exact Hs|]. split.
  - intros node t Hin. rewrite Hs in Hin. now apply in_sent_to in Hin.
  - apply (second_channel_undefined a0 s st Hrun).
Qed.

(** ** The outstanding subscription *)

(** X12.  In every run there is never more than one channel
    subscription outstanding: a listener is registered exactly when line
    186 has been executed and no channel event has carried an error.
    Until a channel event is delivered it is the handler of line 187,
    which stores the copy of the transaction of the run; after that it is
    a handler of line 122, which refers to that copy, and the copy no
    longer exists. *)
Theorem one_subscription_at_most :
  forall (a0 : config) (s : list action) (st : state),
    invoke a0 s = Some st ->
    exists tx,
      front (transactions_argument a0) = Some tx
      /\ channel_subscribers (prot st)
         = (if subscribed (where_ st) && negb (channel_error s)
            then [if no_channel_event s
                  then cb_send_tx 0 else cb_send_tx_ref 0]
            else [])
      /\ (List.length (channel_subscribers (prot st)) <= 1)%nat
      /\ read_tx 0 st
         = if subscribed (where_ st) && no_channel_event s
           then Some tx else None.
Proof.
  intros a0 s st Hrun.
  destruct (invoke_run_inv _ _ _ Hrun) as (st0 & _ & Hf & _ & _ & Hinv).
  exists (tx_local st0). split; [assumption|].
  pose proof (inv_subscribers _ _ _ _ Hinv) as Hsu. unfold armed in Hsu.
  split; [exact Hsu|]. split.
  - rewrite Hsu.
    destruct (subscribed (where_ st) && negb (channel_error s)); simpl; lia.
  - unfold read_tx. destruct (subscribed (where_ st)) eqn:Hsub; simpl.
    + rewrite (inv_bound _ _ _ _ Hinv Hsub).
      destruct (no_channel_event s); reflexivity.
    + destruct (inv_before _ _ _ _ Hinv Hsub) as [_ ->]. reflexivity.
Qed.

End Broadcaster.

(** * The properties on concrete runs *)

(** The libbitcoin functions are instantiated by the level names of
    libbitcoin's log, a message that prints the error value, and
    transactions that are given by the text of their hash. *)
Definition level_name (l : log_level) : string :=
  match l with
  | debug => "DEBUG"
  | info => "INFO"
  | warning => "WARNING"
  | error => "ERROR"
  | fatal => "FATAL"
  end.

Definition error_text (ec : error_code) : string := "error " ++ dec ec.

Definition hash_text (tx : string) : string := tx.

Local Open Scope list_scope.

(** Two transactions, a target of three nodes, no log files. *)
Definition three_nodes : config :=
  mk_config "" "" ["f00d"; "beef"] 3.

(** The steps of [invoke] up to and including line 186. *)
Definition setup : list action := [main; main; main; main].

(** Three channels arrive, the third after the signal handlers are
    installed and the first poll is issued. *)
Definition three_channels : list action :=
  setup
  ++ [env (channel_ready 0 11%nat); env (start_done 0);
      env (channel_ready 0 12%nat); main; main; main; main; main;
      env (send_done 0 "12:00:00"); env (channel_ready 0 13%nat);
      env (send_done 5 "12:00:01")].

(** The run [three_channels]: three sends in the order of the channels
    and four subscriptions made, one armed; the first send carries the
    transaction, the copy is then destroyed, and the second and third
    sends read the destroyed copy. *)
Lemma later_channels_read_destroyed_transaction_witness :
  exists st,
    invoke level_name error_text hash_text three_nodes three_channels
    = Some st
    /\ channel_error three_channels = false
    /\ sends (calls (prot st))
       = [(11%nat, Some "f00d"); (12%nat, None); (13%nat, None)]
    /\ subscriptions (calls (prot st)) = 4%nat
    /\ channel_subscribers (prot st) = [cb_send_tx_ref 0]
    /\ bound_tx st = [None]
    /\ undefined st = true.
Proof.
  destruct (invoke level_name error_text hash_text three_nodes three_channels)
    as [st|] eqn:Hrun; [|vm_compute in Hrun; discriminate].
  exists st. split; [reflexivity|]. split; [vm_compute; reflexivity|].
  assert (Hne : channel_error three_channels = false)
    by (vm_compute; reflexivity).
  destruct (later_channels_read_destroyed_transaction level_name error_text
              hash_text three_nodes three_channels st Hrun Hne)
    as (tx & Hf & Hs & _ & Hn & Hc & Hu).
  assert (Hw : subscribed (where_ st) = true).
  { vm_compute in Hrun. injection Hrun as <-. reflexivity. }
  destruct (Hc Hw) as [Hsub Hb].
  assert (H2 : (2 <= List.length (channels_delivered three_channels))%nat)
    by (vm_compute; lia).
  specialize (Hu H2).
  vm_compute in Hf. injection Hf as <-.
  rewrite Hw in Hn.
  vm_compute in Hs, Hn, Hsub, Hb.
  repeat split; assumption.
Defined.

(** The signal handlers are installed, the loop tests the flag and issues
    its first poll. *)
Definition first_poll : list action :=
  setup ++ [main; main; main; main; main].

(** The first poll reports three connections, the target. *)
Definition target_reached : list action :=
  first_poll ++ [env (count_fetched 0 3)].

(** In the run [target_reached] the flag is false until the count of
    three is delivered, which raises it. *)
Lemma stop_flag_set_once_witness :
  exists st',
    invoke level_name error_text hash_text three_nodes
           (first_poll ++ [env (count_fetched 0 3)])
    = Some st'
    /\ exists st,
         invoke level_name error_text hash_text three_nodes first_poll
         = Some st
         /\ stopped st = false
         /\ stopped st' = true.
Proof.
  destruct (invoke level_name error_text hash_text three_nodes
              (first_poll ++ [env (count_fetched 0 3)]))
    as [st'|] eqn:Hrun; [|vm_compute in Hrun; discriminate].
  exists st'. split; [reflexivity|].
  destruct (stop_flag_set_once level_name error_text hash_text three_nodes
              first_poll (env (count_fetched 0 3)) st' Hrun)
    as (st & Hs & _ & _ & _ & Hraise).
  exists st. split; [exact Hs|].
  assert (Hf : stopped st = false).
  { vm_compute in Hs. injection Hs as <-. reflexivity. }
  split; [exact Hf|].
  apply (Hraise Hf). right. right. right.
  exists 0, 3. split; [reflexivity|]. right. simpl. lia.
Defined.

(** Start fails before line 186 is reached; [invoke] goes on to the
    loop. *)
Definition start_fails : list action :=
  [main; main; main] ++ env (start_done 1) :: [main; main; main; main].

(** The run [start_fails]: the flag is true, one subscription has been
    made, and the loop goes to [stop] at its first test. *)
Lemma start_failure_stops_witness :
  exists st,
    invoke level_name error_text hash_text three_nodes start_fails = Some st
    /\ 1 <> 0
    /\ stopped st = true
    /\ where_ st = at_poll_test
    /\ subscriptions (calls (prot st)) = 1%nat
    /\ exists st2 st3,
         main_step st = Some st2
         /\ where_ st2 = at_stop
         /\ calls (prot st2) = calls (prot st)
         /\ main_step st2 = Some st3
         /\ calls (prot st3) = calls (prot st) ++ [call_stop].
Proof.
  destruct (invoke level_name error_text hash_text three_nodes start_fails)
    as [st|] eqn:Hrun; [|vm_compute in Hrun; discriminate].
  exists st. split; [reflexivity|].
  assert (Hne : 1 <> 0) by discriminate.
  split; [exact Hne|].
  destruct (start_failure_stops level_name error_text hash_text three_nodes
              [main; main; main] [main; main; main; main] 1 st Hrun Hne)
    as (_ & Hs & Hn & Hloop).
  assert (Hw : where_ st = at_poll_test).
  { vm_compute in Hrun. injection Hrun as <-. reflexivity. }
  split; [exact Hs|]. split; [exact Hw|]. split.
  - rewrite Hn, Hw. reflexivity.
  - exact (Hloop Hw).
Defined.

(** The claim of C2 fails on the code: start fails, and the subscription
    of line 186 is registered all the same; a channel that arrives next is
    handed to the handler and the transaction is sent over it. *)
Lemma start_failure_still_subscribes :
  exists st,
    invoke level_name error_text hash_text three_nodes
           ([main; main; main]
            ++ [env (start_done 1); main; env (channel_ready 0 21%nat)])
    = Some st
    /\ stopped st = true
    /\ calls (prot st)
       = [call_set_max_outbound 18; call_start; call_subscribe_channel;
          call_send 21%nat (Some "f00d"); call_subscribe_channel]
    /\ channel_subscribers (prot st) = [cb_send_tx_ref 0]
    /\ undefined st = false.
Proof.
  eexists. split; [vm_compute; reflexivity|].
  vm_compute. repeat split.
Qed.

(** No transactions; and one transaction with a target of zero nodes. *)
Definition no_transactions : config := mk_config "" "" (@nil string) 3.

Definition zero_nodes : config := mk_config "" "" ["f00d"] 0.

(** With a target of zero nodes [start] is called on the first
    transaction. *)
Lemma invoke_takes_front_unchecked_witness :
  transactions_argument zero_nodes = ["f00d"]
  /\ exists st,
       invoke level_name error_text hash_text zero_nodes [main; main; main]
       = Some st
       /\ tx_local st = "f00d"
       /\ In call_start (calls (prot st))
       /\ start_handlers (prot st) = [cb_handle_start].
Proof.
  split; [reflexivity|].
  exact (proj2 (invoke_takes_front_unchecked level_name error_text hash_text
                  zero_nodes) "f00d" [] eq_refl).
Defined.

(** The claim of C5 fails on the code: with no transaction the first
    step of [invoke] applies [front] to an empty collection, and with a
    target of zero nodes [start] is called all the same. *)
Lemma invoke_does_not_validate :
  front (transactions_argument no_transactions) = None
  /\ invoke_begin no_transactions = None
  /\ nodes_option zero_nodes = 0
  /\ exists st,
       invoke level_name error_text hash_text zero_nodes [main; main; main]
       = Some st
       /\ calls (prot st) = [call_set_max_outbound 0; call_start].
Proof.
  split; [reflexivity|]. split; [reflexivity|]. split; [reflexivity|].
  eexists. split; [vm_compute; reflexivity|]. reflexivity.
Qed.

(** A target of three nodes gives a cap of eighteen. *)
Lemma max_outbound_is_six_times_target_witness :
  transactions_argument three_nodes = ["f00d"; "beef"]
  /\ exists st,
       invoke level_name error_text hash_text three_nodes [main; main]
       = Some st
       /\ 0 <= nodes_option three_nodes * 6 < 2 ^ 64
       /\ max_outbound (prot st) = Some 18.
Proof.
  split; [reflexivity|].
  destruct (max_outbound_is_six_times_target level_name error_text hash_text
              three_nodes "f00d" ["beef"] eq_refl)
    as (st & Hrun & _ & _ & _ & Hfit).
  exists st. split; [exact Hrun|].
  assert (Hr : 0 <= nodes_option three_nodes * 6 < 2 ^ 64)
    by (simpl; lia).
  split; [exact Hr|]. exact (Hfit Hr).
Defined.

(** A target of [2^63] nodes. *)
Definition huge_target : config :=
  mk_config "" "" ["f00d"] 9223372036854775808.

(** The claim of C6 fails on the code: for a target of [2^63] the
    product in [size_t] is 0, not six times the target. *)
Lemma max_outbound_wraps :
  exists st,
    invoke level_name error_text hash_text huge_target [main; main] = Some st
    /\ max_outbound (prot st) = Some 0
    /\ nodes_option huge_target * 6 = 55340232221128654848
    /\ max_outbound (prot st) <> Some (nodes_option huge_target * 6).
Proof.
  eexists. split; [vm_compute; reflexivity|].
  split; [vm_compute; reflexivity|]. split; [reflexivity|].
  vm_compute. discriminate.
Qed.

(** The run [target_reached] goes on to the return of [okay]. *)
Lemma invoke_returns_okay_witness :
  exists st,
    invoke level_name error_text hash_text three_nodes target_reached
    = Some st
    /\ stopped st = true
    /\ exists n st',
         (n <= 9)%nat
         /\ invoke level_name error_text hash_text three_nodes
                   (target_reached ++ repeat main n)
            = Some st'
         /\ where_ st' = returned okay
         /\ In call_stop (calls (prot st')).
Proof.
  destruct (invoke level_name error_text hash_text three_nodes target_reached)
    as [st|] eqn:Hrun; [|vm_compute in Hrun; discriminate].
  exists st. split; [reflexivity|].
  assert (Hs : stopped st = true).
  { vm_compute in Hrun. injection Hrun as <-. reflexivity. }
  split; [exact Hs|].
  destruct (invoke_returns_okay level_name error_text hash_text
              three_nodes target_reached st Hrun) as (_ & Hret & _).
  destruct (Hret Hs) as (n & st' & Hn & Hrun' & Hw & Hin & _).
  exists n, st'. repeat split; assumption.
Defined.

(** C10 on the code.  After [bind_logging] with both paths the output
    functions are bound as the claim says: [output_to_file] on the debug
    file for the debug and info levels and on the error file for the
    warnings, [output_cerr_and_file] on the error file for the error and
    fatal levels.  But no message reaches a file.  A message of level
    error reaches the console and the error file stays empty:
    [output_cerr_and_file] never writes to the file it is given.  And both
    stream objects have been destroyed when [bind_logging] returns, so
    that a warning and a message of level info are insertions into a
    destroyed stream. *)
Theorem error_message_misses_the_file :
  let o := bind_logging "debug.log" "error.log" io_initial in
  debug_out o = bound_output_to_file debug_file
  /\ info_out o = bound_output_to_file debug_file
  /\ warning_out o = bound_output_to_file error_file
  /\ error_out o = bound_output_cerr_and_file error_file
  /\ fatal_out o = bound_output_cerr_and_file error_file
  /\ debug_stream o = mk_ofstream "" false
  /\ error_stream o = mk_ofstream "" false
  /\ (exists o',
        log_to level_name error "net" "disk full" o = Some o'
        /\ error_stream o' = mk_ofstream "" false
        /\ cerr o' = ("ERROR [net]: disk full" ++ endl)%string)
  /\ log_to level_name warning "" "slow peer" o = None
  /\ log_to level_name info "" "Caught signal: 2" o = None.
Proof.
  cbv zeta. repeat split; try (vm_compute; reflexivity).
  eexists. split; [vm_compute; reflexivity|].
  split; vm_compute; reflexivity.
Qed.

(** * The further properties on concrete runs *)

(** Two transactions, a target of two nodes, both log files. *)
Definition with_logs : config :=
  mk_config "debug.log" "error.log" ["f00d"; "beef"] 2.

(** The second channel fails. *)
Definition second_channel_fails : list action :=
  (setup ++ [env (channel_ready 0 11%nat)])
  ++ env (channel_ready 3 12%nat) :: [main; env (start_done 0); main].

Lemma channel_failure_ends_broadcast_witness :
  exists st,
    invoke level_name error_text hash_text three_nodes second_channel_fails
    = Some st
    /\ 3 <> 0
    /\ stopped st = true
    /\ channel_subscribers (prot st) = []
    /\ sends (calls (prot st)) = [(11%nat, Some "f00d")].
Proof.
  destruct (invoke level_name error_text hash_text three_nodes
              second_channel_fails)
    as [st|] eqn:Hrun; [|vm_compute in Hrun; discriminate].
  exists st. split; [reflexivity|].
  assert (Hne : 3 <> 0) by discriminate.
  split; [exact Hne|].
  destruct (channel_failure_ends_broadcast level_name error_text hash_text
              three_nodes (setup ++ [env (channel_ready 0 11%nat)])
              [main; env (start_done 0); main] 3 12%nat st Hrun Hne)
    as (Hs & Hc & _ & tx & Hf & Hsd).
  vm_compute in Hf. injection Hf as <-.
  split; [exact Hs|]. split; [exact Hc | exact Hsd].
Defined.

Lemma unrouted_messages_reach_library_witness :
  exists st,
    invoke level_name error_text hash_text three_nodes target_reached
    = Some st
    /\ default_out (io st) = [(debug, "", "3 CONNECTIONS")].
Proof.
  destruct (invoke level_name error_text hash_text three_nodes
              target_reached)
    as [st|] eqn:Hrun; [|vm_compute in Hrun; discriminate].
  exists st. split; [reflexivity|].
  rewrite (unrouted_messages_reach_library level_name error_text hash_text
             three_nodes target_reached st Hrun).
  vm_compute. reflexivity.
Defined.

(** The run [target_reached] followed to the return of [invoke]. *)
Definition to_the_end : list action :=
  target_reached ++ [main; main; main].

Lemma session_lifecycle_witness :
  exists st,
    invoke level_name error_text hash_text three_nodes to_the_end = Some st
    /\ lifecycle (calls (prot st))
       = [call_set_max_outbound 18; call_start; call_stop]
    /\ max_outbound (prot st) = Some 18
    /\ stopped st = true.
Proof.
  destruct (invoke level_name error_text hash_text three_nodes to_the_end)
    as [st|] eqn:Hrun; [|vm_compute in Hrun; discriminate].
  exists st. split; [reflexivity|].
  destruct (session_lifecycle level_name error_text hash_text three_nodes
              to_the_end st Hrun) as (Hl & Hm & Hs).
  assert (Hw : where_ st = returned okay).
  { vm_compute in Hrun. injection Hrun as <-. reflexivity. }
  assert (Hin : In call_stop (calls (prot st))).
  { vm_compute in Hrun. injection Hrun as <-. simpl. tauto. }
  rewrite Hw in Hl, Hm. split; [exact Hl|]. split; [exact Hm|].
  exact (Hs Hin).
Defined.

Lemma three_signals_handled_witness :
  exists st,
    invoke level_name error_text hash_text three_nodes first_poll = Some st
    /\ signals_installed (where_ st) = true
    /\ handled_signals st = [SIGINT; SIGTERM; SIGABRT]
    /\ (exists st',
          deliver level_name error_text hash_text (signal_raised SIGTERM) st
          = Some st'
          /\ stopped st' = true /\ prot st' = prot st
          /\ where_ st' = where_ st)
    /\ deliver level_name error_text hash_text (signal_raised 1) st = None.
Proof.
  destruct (invoke level_name error_text hash_text three_nodes first_poll)
    as [st|] eqn:Hrun; [|vm_compute in Hrun; discriminate].
  exists st. split; [reflexivity|].
  destruct (three_signals_handled level_name error_text hash_text
              three_nodes first_poll st Hrun) as (Hh & Hin & Hnot).
  assert (Hw : where_ st = at_poll_sleep).
  { vm_compute in Hrun. injection Hrun as <-. reflexivity. }
  assert (Hi : signals_installed (where_ st) = true)
    by (rewrite Hw; reflexivity).
  split; [exact Hi|]. split; [rewrite Hh, Hw; reflexivity|]. split.
  - apply (Hin Hi). right. left. reflexivity.
  - apply Hnot; discriminate.
Defined.

(** With an error-log path only, a warning with a body goes through the
    destroyed stream, whatever the error file held before. *)
Lemma bind_logging_binds_destroyed_streams_witness :
  empty "error.log" = false
  /\ error_stream
       (bind_logging "" "error.log"
          (set_stream error_file (mk_ofstream "old" true) io_initial))
     = mk_ofstream "" false
  /\ log_to level_name warning "net" "slow peer"
       (bind_logging "" "error.log"
          (set_stream error_file (mk_ofstream "old" true) io_initial))
     = None.
Proof.
  split; [reflexivity|].
  destruct (bind_logging_binds_destroyed_streams level_name "" "error.log"
              (set_stream error_file (mk_ofstream "old" true) io_initial)
              warning "net" "slow peer") as (Hw & _).
  destruct (Hw eq_refl eq_refl) as (_ & He & Hl).
  split; [exact He | exact Hl].
Defined.

(** With both log files, start fails. *)
Lemma warning_uses_destroyed_error_file_witness :
  exists st,
    invoke level_name error_text hash_text with_logs
           [main; main; main; env (start_done 1)]
    = Some st
    /\ empty (logging_error_setting with_logs) = false
    /\ warning_out (io st) = bound_output_to_file error_file
    /\ undefined st = true.
Proof.
  destruct (invoke level_name error_text hash_text with_logs
              [main; main; main; env (start_done 1)])
    as [st|] eqn:Hrun; [|vm_compute in Hrun; discriminate].
  exists st. split; [reflexivity|]. split; [reflexivity|].
  destruct (warning_uses_destroyed_error_file level_name error_text
              hash_text with_logs [main; main; main; env (start_done 1)]
              st Hrun eq_refl) as (Hout & Hu & _).
  split.
  - apply Hout. vm_compute in Hrun. injection Hrun as <-. discriminate.
  - apply (Hu "Start failed: error 1"). vm_compute. left. reflexivity.
Defined.

(** With both log files, start succeeds. *)
Lemma debug_message_uses_destroyed_debug_file_witness :
  exists st,
    invoke level_name error_text hash_text with_logs
           [main; main; main; env (start_done 0)]
    = Some st
    /\ empty (logging_debug_setting with_logs) = false
    /\ debug_out (io st) = bound_output_to_file debug_file
    /\ undefined st = true.
Proof.
  destruct (invoke level_name error_text hash_text with_logs
              [main; main; main; env (start_done 0)])
    as [st|] eqn:Hrun; [|vm_compute in Hrun; discriminate].
  exists st. split; [reflexivity|]. split; [reflexivity|].
  destruct (debug_message_uses_destroyed_debug_file level_name error_text
              hash_text with_logs [main; main; main; env (start_done 0)]
              st Hrun eq_refl) as (Hout & Hu & _).
  split.
  - apply Hout. vm_compute in Hrun. injection Hrun as <-. discriminate.
  - apply (Hu debug "Started."); [left; reflexivity|].
    vm_compute. left. reflexivity.
Defined.

(** Two channels arrive one after the other. *)
Definition two_channels : list action :=
  setup ++ [env (channel_ready 0 11%nat); env (channel_ready 0 12%nat)].

Lemma only_first_send_reads_the_transaction_witness :
  exists st,
    invoke level_name error_text hash_text three_nodes two_channels
    = Some st
    /\ sends (calls (prot st)) = [(11%nat, Some "f00d"); (12%nat, None)]
    /\ undefined st = true.
Proof.
  destruct (invoke level_name error_text hash_text three_nodes two_channels)
    as [st|] eqn:Hrun; [|vm_compute in Hrun; discriminate].
  exists st. split; [reflexivity|].
  destruct (only_first_send_reads_the_transaction level_name error_text
              hash_text three_nodes two_channels st Hrun)
    as (tx & Hf & Hs & _ & Hu).
  vm_compute in Hf. injection Hf as <-.
  split; [exact Hs|].
  apply Hu. vm_compute. lia.
Defined.

(** Before a channel arrives the handler of line 187 is armed and its
    copy of the transaction exists; after the first channel a handler of
    line 122 is armed and the copy does not exist. *)
Lemma one_subscription_at_most_witness :
  (exists st,
     invoke level_name error_text hash_text three_nodes setup = Some st
     /\ channel_subscribers (prot st) = [cb_send_tx 0]
     /\ read_tx 0 st = Some "f00d")
  /\ (exists st,
        invoke level_name error_text hash_text three_nodes
               (setup ++ [env (channel_ready 0 11%nat)])
        = Some st
        /\ channel_subscribers (prot st) = [cb_send_tx_ref 0]
        /\ read_tx 0 st = None).
Proof.
  split.
  - destruct (invoke level_name error_text hash_text three_nodes setup)
      as [st|] eqn:Hrun; [|vm_compute in Hrun; discriminate].
    exists st. split; [reflexivity|].
    destruct (one_subscription_at_most level_name error_text hash_text
                three_nodes setup st Hrun) as (tx & Hf & Hc & _ & Hr).
    vm_compute in Hf. injection Hf as <-.
    assert (Hw : subscribed (where_ st) = true).
    { vm_compute in Hrun. injection Hrun as <-. reflexivity. }
    rewrite Hw in Hc, Hr. split; [exact Hc | exact Hr].
  - destruct (invoke level_name error_text hash_text three_nodes
                (setup ++ [env (channel_ready 0 11%nat)]))
      as [st|] eqn:Hrun; [|vm_compute in Hrun; discriminate].
    exists st. split; [reflexivity|].
    destruct (one_subscription_at_most level_name error_text hash_text
                three_nodes (setup ++ [env (channel_ready 0 11%nat)])
                st Hrun) as (tx & Hf & Hc & _ & Hr).
    assert (Hw : subscribed (where_ st) = true).
    { vm_compute in Hrun. injection Hrun as <-. reflexivity. }
    rewrite Hw in Hc, Hr. split; [exact Hc|].
    rewrite Hr. reflexivity.
Defined.
